(** * Vibrato Viewer: the front end's numeric core

    A shallow embedding of the TypeScript sources
    [vibrato-viewer/src/App.tsx] and
    [vibrato-viewer/src/components/ScrollingVibratoGraph.tsx]:
    the correlation estimate, the extrema scan of the mock generator,
    the visible window of the scrolling renderer, the playback / drag
    handlers and the analysis request.

    A JavaScript [number] is an IEEE 754 binary64 value.  The code is
    translated once, over an interface [JsNumber] of the operations it
    uses, and read at two instances: [binary64] (primitive floats, the
    arithmetic the browser runs) and [exact] (real numbers, the
    arithmetic the formulas denote when nothing is rounded). *)

From Stdlib Require Import Floats String.
From Stdlib Require Import Reals Lra Lia List Bool ZArith Sorted.
Import ListNotations.

Set Implicit Arguments.
#[local] Set Warnings "-inexact-float,-abstract-large-number".

(** ** Numbers *)

Class JsNumber (num : Type) : Type := {
  zero : num;
  ofNat : nat -> num;            (* an integer literal or an array length *)
  add : num -> num -> num;
  sub : num -> num -> num;
  mul : num -> num -> num;
  div : num -> num -> num;
  nsqrt : num -> num;            (* Math.sqrt *)
  nabs : num -> num;             (* Math.abs *)
  nmax : num -> num -> num;      (* Math.max *)
  nmin : num -> num -> num;      (* Math.min *)
  eqb : num -> num -> bool;      (* a === b *)
  ltb : num -> num -> bool;      (* a < b *)
  leb : num -> num -> bool       (* a <= b *)
}.

Declare Scope js_scope.
Delimit Scope js_scope with js.
Notation "a [+] b" := (add a b) (at level 50, left associativity) : js_scope.
Notation "a [-] b" := (sub a b) (at level 50, left associativity) : js_scope.
Notation "a [*] b" := (mul a b) (at level 40, left associativity) : js_scope.
Notation "a [/] b" := (div a b) (at level 40, left associativity) : js_scope.
Notation "a [===] b" := (eqb a b) (at level 70, no associativity) : js_scope.
Notation "a [<] b" := (ltb a b) (at level 70, no associativity) : js_scope.
Notation "a [>] b" := (ltb b a) (at level 70, no associativity) : js_scope.
Notation "a [<=] b" := (leb a b) (at level 70, no associativity) : js_scope.
Notation "a [>=] b" := (leb b a) (at level 70, no associativity) : js_scope.

(** [Math.max] and [Math.min] on doubles: NaN when an argument is NaN,
    and [+0] taken as larger than [-0]. *)
Definition float_max (a b : float) : float :=
  if (PrimFloat.is_nan a || PrimFloat.is_nan b)%bool then PrimFloat.nan
  else if PrimFloat.ltb a b then b
  else if PrimFloat.ltb b a then a
  else match PrimFloat.classify a with NZero => b | _ => a end.

Definition float_min (a b : float) : float :=
  if (PrimFloat.is_nan a || PrimFloat.is_nan b)%bool then PrimFloat.nan
  else if PrimFloat.ltb a b then a
  else if PrimFloat.ltb b a then b
  else match PrimFloat.classify a with PZero => b | _ => a end.

#[export] Instance binary64 : JsNumber float := {|
  zero := PrimFloat.zero;
  ofNat := fun n => PrimFloat.of_uint63 (Uint63.of_Z (Z.of_nat n));
  add := PrimFloat.add;
  sub := PrimFloat.sub;
  mul := PrimFloat.mul;
  div := PrimFloat.div;
  nsqrt := PrimFloat.sqrt;
  nabs := PrimFloat.abs;
  nmax := float_max;
  nmin := float_min;
  eqb := PrimFloat.eqb;
  ltb := PrimFloat.ltb;
  leb := PrimFloat.leb
|}.

Definition Reqb (a b : R) : bool := if Req_dec_T a b then true else false.
Definition Rltb (a b : R) : bool := if Rlt_dec a b then true else false.
Definition Rleb (a b : R) : bool := if Rle_dec a b then true else false.

#[export] Instance exact : JsNumber R := {|
  zero := 0%R;
  ofNat := INR;
  add := Rplus;
  sub := Rminus;
  mul := Rmult;
  div := Rdiv;
  nsqrt := R_sqrt.sqrt;
  nabs := Rabs;
  nmax := Rmax;
  nmin := Rmin;
  eqb := Reqb;
  ltb := Rltb;
  leb := Rleb
|}.

(** ** Correlation estimate (ScrollingVibratoGraph.tsx, calculateCorrelation) *)

Section Correlation.
Context {num : Type} `{JsNumber num}.
Local Open Scope js_scope.

(** The three accumulators of the [for] loop. *)
Record sums : Type := mkSums { numerator : num; denomX : num; denomY : num }.

(** One pass of the loop body at index [i]. *)
Definition corrStep (x y : list num) (meanX meanY : num) (s : sums) (i : nat) : sums :=
  let dx := nth i x zero [-] meanX in
  let dy := nth i y zero [-] meanY in
  mkSums (numerator s [+] dx [*] dy)
         (denomX s [+] dx [*] dx)
         (denomY s [+] dy [*] dy).

Definition mean (x : list num) : num :=
  fold_left add x zero [/] ofNat (length x).

Definition corrLoop (x y : list num) : sums :=
  fold_left (corrStep x y (mean x) (mean y)) (seq 0 (length x)) (mkSums zero zero zero).

Definition calculateCorrelation (x y : list num) : num :=
  if negb (length x =? length y) || (length x =? 0) then zero
  else
    let s := corrLoop x y in
    if (denomX s [===] zero) || (denomY s [===] zero) then zero
    else numerator s [/] nsqrt (denomX s [*] denomY s).

(** What a call of the function yields: the body has no [throw], so a
    call on two arrays always completes with a number. *)
Inductive completion : Type :=
| Returned (v : num)
| Threw (errorName : string).

Definition callCorrelation (x y : list num) : completion :=
  Returned (calculateCorrelation x y).
End Correlation.

Arguments sums num : clear implicits.
Arguments completion num : clear implicits.

(** ** Analysis result (the [AnalysisData] interface of both files) *)

Record AnalysisData (num : Type) : Type := mkAnalysisData {
  times : list num;
  pitchDeviation : list num;
  amplitudeDeviation : list num;
  amplitude : list num;
  peaks : list nat;
  troughs : list nat;
  oscillations : nat
}.

(** ** Mock generator and its extrema scan (App.tsx, generateMockData) *)

Section MockData.
Context {num : Type} `{JsNumber num}.
Local Open Scope js_scope.

(** A relational operator applied to array reads: a read past the end
    of an array is [undefined] ([None]), which compares as NaN, so the
    test is false. *)
Definition jsGt (a b : option num) : bool :=
  match a, b with Some u, Some v => u [>] v | _, _ => false end.

Definition jsLt (a b : option num) : bool :=
  match a, b with Some u, Some v => u [<] v | _, _ => false end.

Definition jsAbs (a : option num) : option num := option_map nabs a.

(** [a[k]] for an integer [k]: undefined outside [0 .. a.length - 1]. *)
Definition arrayRead (a : list num) (k : Z) : option num :=
  if (k <? 0)%Z then None else nth_error a (Z.to_nat k).

(** The values pushed for one frame. *)
Record frame : Type := mkFrame {
  frameTime : num;
  framePitch : num;
  frameAmpDeviation : num;
  frameAmplitude : num
}.

(** The arrays while the loop runs. *)
Record scan : Type := mkScan {
  scTimes : list num;
  scPitchDeviation : list num;
  scAmplitudeDeviation : list num;
  scAmplitude : list num;
  scPeaks : list nat;
  scTroughs : list nat
}.

Definition emptyScan : scan := mkScan [] [] [] [] [] [].

(** The two tests of the loop body at index [i], on the array [pd] as
    it stands when they run. *)
Definition peakTest (pd : list num) (i : nat) : bool :=
  let k := Z.of_nat i in
  jsGt (arrayRead pd k) (arrayRead pd (k - 1))
  && jsGt (arrayRead pd k) (arrayRead pd (k + 1))
  && jsGt (jsAbs (arrayRead pd k)) (Some (ofNat 10)).

Definition troughTest (pd : list num) (i : nat) : bool :=
  let k := Z.of_nat i in
  jsLt (arrayRead pd k) (arrayRead pd (k - 1))
  && jsLt (arrayRead pd k) (arrayRead pd (k + 1))
  && jsGt (jsAbs (arrayRead pd k)) (Some (ofNat 10)).

(** The loop's guard [i > 0 && i < numFrames - 1]. *)
Definition interior (numFrames i : nat) : bool :=
  (0 <? i) && (Z.of_nat i <? Z.of_nat numFrames - 1)%Z.

Section Loop.
(** The per-frame formulas, and the loop bound. *)
Variable frameAt : nat -> frame.
Variable numFrames : nat.

Definition mockBody (st : scan) (i : nat) : scan :=
  let f := frameAt i in
  let pd := scPitchDeviation st ++ [framePitch f] in
  mkScan (scTimes st ++ [frameTime f])
         pd
         (scAmplitudeDeviation st ++ [frameAmpDeviation f])
         (scAmplitude st ++ [frameAmplitude f])
         (if interior numFrames i && peakTest pd i then scPeaks st ++ [i] else scPeaks st)
         (if interior numFrames i && troughTest pd i then scTroughs st ++ [i] else scTroughs st).

(** The arrays after the first [k] passes of the loop. *)
Definition scanAfter (k : nat) : scan :=
  fold_left mockBody (seq 0 k) emptyScan.

Definition mockLoop : scan := scanAfter numFrames.

Definition mockResult : AnalysisData num :=
  let st := mockLoop in
  mkAnalysisData (scTimes st) (scPitchDeviation st) (scAmplitudeDeviation st)
                 (scAmplitude st) (scPeaks st) (scTroughs st)
                 (length (scPeaks st)).
End Loop.

(** [Math.sin] and [Math.PI] are not operations of every instance;
    the generator takes them as parameters. *)
Variable sinF : num -> num.
Variable piC : num.

(** A decimal literal [a/b], e.g. 5.5 as [dec 55 10]: the quotient of
    two exactly represented integers rounds to the literal's value. *)
Definition dec (a b : nat) : num := ofNat a [/] ofNat b.

Definition mockFrame (i : nat) : frame :=
  let time := (ofNat i [*] ofNat 512) [/] ofNat 44100 in
  let vibratoRate := dec 55 10 [+] sinF (time [*] dec 5 10) [*] dec 5 10 in
  let vibratoWidth := ofNat 30 [+] sinF (time [*] dec 3 10) [*] ofNat 20 in
  let pitch := vibratoWidth [*] sinF (ofNat 2 [*] piC [*] vibratoRate [*] time) in
  let ampDeviation :=
    (pitch [/] ofNat 30) [*] ofNat 5
    [+] sinF (ofNat 2 [*] piC [*] vibratoRate [*] time [+] dec 3 10) [*] ofNat 3 in
  let baseAmp := dec 5 10 [+] sinF (time [*] dec 7 10) [*] dec 3 10 in
  let pitchCorrelation := (pitch [/] ofNat 100) [*] dec 2 10 in
  mkFrame time pitch ampDeviation (nmax zero (baseAmp [+] pitchCorrelation)).

Definition generateMockData : AnalysisData num := mockResult mockFrame 2000.
End MockData.

Arguments frame num : clear implicits.
Arguments scan num : clear implicits.

(** The generator in exact arithmetic, with the real sine and pi. *)
Definition generateMockDataExact : AnalysisData R := generateMockData sin PI.

(** ** Analysis request (App.tsx, analyzeAudio) *)

Section Analyze.
Context {num : Type} `{JsNumber num}.
Variable sinF : num -> num.
Variable piC : num.

(** How the [fetch] of the analysis endpoint ends. *)
Inductive fetchResult : Type :=
| FetchRejected (error : string)          (* fetch or response.json() throws *)
| ResponseNotOk (detail : option string)  (* !response.ok, with errorData.detail *)
| ResponseOk (data : AnalysisData num).

Record AppState : Type := mkAppState {
  analysisData : option (AnalysisData num);
  isAnalyzing : bool;
  alerts : list string                    (* the messages shown by alert *)
}.

(** [errorData.detail || 'Analysis failed']: an absent or empty
    [detail] is falsy. *)
Definition notOkMessage (detail : option string) : string :=
  match detail with
  | Some d => if (d =? "")%string then "Analysis failed"%string else d
  | None => "Analysis failed"%string
  end.

Definition alertText (e : string) : string :=
  ("Failed to analyze audio: " ++ e
   ++ ". Make sure the backend is running (uvicorn backend:app --reload)")%string.

(** [setIsAnalyzing(true)]: the run is pending. *)
Definition analyzeStart (st : AppState) : AppState :=
  mkAppState (analysisData st) true (alerts st).

(** The [catch] block followed by [finally]; [e] is the text of the
    caught error inside the template string. *)
Definition catchBlock (e : string) (st : AppState) : AppState :=
  mkAppState (Some (generateMockData sinF piC)) false (alerts st ++ [alertText e]).

(** The [try] / [catch] / [finally] once the request has ended. *)
Definition analyzeSettle (r : fetchResult) (st : AppState) : AppState :=
  match r with
  | FetchRejected e => catchBlock e st
  | ResponseNotOk detail => catchBlock ("Error: " ++ notOkMessage detail)%string st
  | ResponseOk data => mkAppState (Some data) false (alerts st)
  end.

Definition analyzeAudio (r : fetchResult) (st : AppState) : AppState :=
  analyzeSettle r (analyzeStart st).

Definition failed (r : fetchResult) : bool :=
  match r with ResponseOk _ => false | _ => true end.
End Analyze.

Arguments fetchResult num : clear implicits.
Arguments AppState num : clear implicits.

(** ** Scrolling renderer (ScrollingVibratoGraph.tsx, main rendering effect) *)

Section Renderer.
Context {num : Type} `{JsNumber num}.
Local Open Scope js_scope.

(** [Array.prototype.findIndex]: the first index whose element passes
    the test, or -1. *)
Fixpoint findIndexFrom (p : num -> bool) (l : list num) (i : Z) : Z :=
  match l with
  | [] => (-1)%Z
  | a :: l' => if p a then i else findIndexFrom p l' (i + 1)%Z
  end.

Definition findIndex (p : num -> bool) (l : list num) : Z := findIndexFrom p l 0%Z.

Definition timeEndOf (currentTime : num) : num := currentTime.
Definition timeStartOf (currentTime windowSize : num) : num :=
  nmax zero (currentTime [-] windowSize).

Definition visibleWindow (currentTime windowSize : num) : num * num :=
  (timeStartOf currentTime windowSize, timeEndOf currentTime).

Definition startIdxOf (data : AnalysisData num) (currentTime windowSize : num) : Z :=
  findIndex (fun t => t [>=] timeStartOf currentTime windowSize) (times data).

Definition endIdxOf (data : AnalysisData num) (currentTime : num) : Z :=
  findIndex (fun t => t [>=] timeEndOf currentTime) (times data).

Inductive panel : Type := PitchPanel | VolumePanel | OverlayPanel.

(** What one run of the effect puts on the canvases, at the level of
    the frame indices it reads. *)
Inductive drawOp : Type :=
| Clear (p : panel)
| Grid (p : panel)
| Curve (p : panel) (indices : list nat)
| Marker (isPeak : bool) (idx : nat)
| CorrelationLabel (corr : num)
| Playhead (p : panel).

(** The indices of [for (i = startIdx; i <= endIdx && i < n; i++)]. *)
Definition curveIndices (startIdx endIdx n : nat) : list nat :=
  seq startIdx (Nat.min (S endIdx) n - startIdx).

(** [a.slice(from, to)] for indices inside the array. *)
Definition slice (a : list num) (from to : nat) : list num :=
  firstn (to - from) (skipn from a).

Definition markers (isPeak : bool) (idxs : list nat) (startIdx endIdx : nat) : list drawOp :=
  map (Marker isPeak)
      (filter (fun idx => (startIdx <=? idx) && (idx <=? endIdx)) idxs).

Definition drawPitchDeviation (data : AnalysisData num) (startIdx endIdx : nat) : list drawOp :=
  Curve PitchPanel (curveIndices startIdx endIdx (length (times data)))
  :: markers true (peaks data) startIdx endIdx
  ++ markers false (troughs data) startIdx endIdx.

Definition drawAmplitude (data : AnalysisData num) (startIdx endIdx : nat) : list drawOp :=
  [Curve VolumePanel (curveIndices startIdx endIdx (length (times data)))].

Definition drawCorrelation (data : AnalysisData num) (startIdx endIdx : nat) : list drawOp :=
  Curve OverlayPanel (curveIndices startIdx endIdx (length (times data)))
  :: (if startIdx <? endIdx
      then [CorrelationLabel
              (calculateCorrelation (slice (pitchDeviation data) startIdx (endIdx + 1))
                                    (slice (amplitudeDeviation data) startIdx (endIdx + 1)))]
      else []).

(** One run of the effect with the three canvases mounted.  The empty
    list is a tick on which nothing is drawn. *)
Definition renderEffect (data : AnalysisData num) (currentTime windowSize : num) : list drawOp :=
  if length (times data) =? 0 then []
  else
    let startIdx := startIdxOf data currentTime windowSize in
    let endIdx := endIdxOf data currentTime in
    if (startIdx =? -1)%Z || (endIdx =? -1)%Z then []
    else
      let s := Z.to_nat startIdx in
      let e := Z.to_nat endIdx in
      [Clear PitchPanel; Clear VolumePanel; Clear OverlayPanel;
       Grid PitchPanel; Grid VolumePanel; Grid OverlayPanel]
      ++ drawPitchDeviation data s e
      ++ drawAmplitude data s e
      ++ drawCorrelation data s e
      ++ [Playhead PitchPanel; Playhead VolumePanel; Playhead OverlayPanel].

(** The frame indices an operation reads from the arrays. *)
Definition indicesRead (op : drawOp) : list nat :=
  match op with
  | Curve _ l => l
  | Marker _ i => [i]
  | _ => []
  end.
End Renderer.

Arguments drawOp num : clear implicits.

(** ** Playback position (App.tsx: the transport handlers, the RAF effect, the audio listeners) *)

Section Playback.
Context {num : Type} `{JsNumber num}.
Local Open Scope js_scope.

(** The React state the handlers share, and the two properties of the
    audio element they read and write: [audio.currentTime] and
    [audio.duration], which is NaN ([None] here) while the element has
    no metadata.  The progress bar and the audio element are mounted. *)
Record PlaybackState : Type := mkPlayback {
  currentTime : num;
  duration : num;
  isPlaying : bool;
  isDragging : bool;
  audioTime : num;
  audioDuration : option num
}.

Definition setCurrentTime (v : num) (s : PlaybackState) : PlaybackState :=
  mkPlayback v (duration s) (isPlaying s) (isDragging s) (audioTime s) (audioDuration s).

Definition setDuration (v : num) (s : PlaybackState) : PlaybackState :=
  mkPlayback (currentTime s) v (isPlaying s) (isDragging s) (audioTime s) (audioDuration s).

Definition setIsPlaying (b : bool) (s : PlaybackState) : PlaybackState :=
  mkPlayback (currentTime s) (duration s) b (isDragging s) (audioTime s) (audioDuration s).

Definition setIsDragging (b : bool) (s : PlaybackState) : PlaybackState :=
  mkPlayback (currentTime s) (duration s) (isPlaying s) b (audioTime s) (audioDuration s).

Definition withAudioTime (v : num) (s : PlaybackState) : PlaybackState :=
  mkPlayback (currentTime s) (duration s) (isPlaying s) (isDragging s) v (audioDuration s).

Definition withAudioDuration (d : option num) (s : PlaybackState) : PlaybackState :=
  mkPlayback (currentTime s) (duration s) (isPlaying s) (isDragging s) (audioTime s) d.

(** The [useState] initial values, and an audio element without media. *)
Definition initialPlayback : PlaybackState :=
  mkPlayback zero zero false false zero None.

(** A number used as a condition: NaN and zero are falsy. *)
Definition truthy (v : num) : bool := (v [===] v) && negb (v [===] zero).

(** The global [isFinite] on a number: [v - v] is 0 exactly when [v] is
    neither NaN nor infinite. *)
Definition isFinite (v : num) : bool := (v [-] v) [===] zero.

(** [audio.duration || 0]. *)
Definition durationOrZero (s : PlaybackState) : num :=
  match audioDuration s with
  | Some d => if truthy d then d else zero
  | None => zero
  end.

(** The test [audio.duration && isFinite(audio.duration)], with the
    value of [audio.duration] when it passes. *)
Definition loadedDuration (s : PlaybackState) : option num :=
  match audioDuration s with
  | Some d => if truthy d && isFinite d then Some d else None
  | None => None
  end.

(** [audio.currentTime = v]: an element with metadata seeks inside its
    media, [0 .. audio.duration]; one without keeps [v] as the position
    it will start from. *)
Definition audioSeek (v : num) (s : PlaybackState) : PlaybackState :=
  match audioDuration s with
  | Some d => withAudioTime (nmax zero (nmin v d)) s
  | None => withAudioTime v s
  end.

(** [audio.play()]: an element that has played to its end starts again
    from the beginning. *)
Definition audioPlay (s : PlaybackState) : PlaybackState :=
  match audioDuration s with
  | Some d => if audioTime s [>=] d then withAudioTime zero s else s
  | None => s
  end.

Inductive event : Type :=
| RafTick                     (* the animation-frame callback updateTime *)
| TimeUpdate                  (* the audio element's timeupdate event *)
| Ended                       (* the audio element's ended event *)
| LoadedMetadata (d : num)    (* its loadedmetadata event, audio.duration being d *)
| CanPlay                     (* its canplay event *)
| DragStart (pct : num)       (* mousedown on the bar, at x / rect.width *)
| DragMove (pct : num)        (* mousemove on the window, at x / rect.width *)
| DragEnd                     (* mouseup on the window *)
| TogglePlay
| Restart
| FileUpload                  (* a file chosen in the upload input *)
| MediaAdvance (dt : num)     (* the audio element has played on for dt seconds *)
| MediaLoaded (d : num).      (* the audio element has read its metadata *)

Definition togglePlayPause (s : PlaybackState) : PlaybackState :=
  if isPlaying s
  then setIsPlaying false s                (* audio.pause() *)
  else setIsPlaying true (audioPlay s).

Definition restart (s : PlaybackState) : PlaybackState :=
  setCurrentTime zero (audioSeek zero s).

Definition seekTo (time : num) (s : PlaybackState) : PlaybackState :=
  if duration s [>] zero then
    let clampedTime := nmax zero (nmin time (duration s)) in
    setCurrentTime clampedTime (audioSeek clampedTime s)
  else s.

Definition handleProgressDragStart (pct : num) (s : PlaybackState) : PlaybackState :=
  let s' := setIsDragging true s in
  if duration s [>] zero then seekTo (pct [*] duration s) s' else s'.

Definition handleProgressDrag (pct : num) (s : PlaybackState) : PlaybackState :=
  if duration s [>] zero
  then seekTo (nmax zero (nmin (ofNat 1) pct) [*] duration s) s
  else s.

Definition handleProgressDragEnd (s : PlaybackState) : PlaybackState :=
  setIsDragging false s.

Definition updateTime (s : PlaybackState) : PlaybackState :=
  if isPlaying s && negb (isDragging s) then setCurrentTime (audioTime s) s else s.

(** [d] is the value of [audio.duration] the handler reads. *)
Definition handleLoadedMetadata (d : num) (s : PlaybackState) : PlaybackState :=
  setCurrentTime zero (setDuration d s).

Definition handleCanPlay (s : PlaybackState) : PlaybackState :=
  if duration s [===] zero then
    match loadedDuration s with
    | Some d => setDuration d s
    | None => s
    end
  else s.

Definition handleEnded (s : PlaybackState) : PlaybackState :=
  setCurrentTime (durationOrZero s) (setIsPlaying false s).

Definition handleTimeUpdate (s : PlaybackState) : PlaybackState :=
  if negb (isPlaying s) && negb (isDragging s) then setCurrentTime (audioTime s) s else s.

(** The reset at the head of [handleFileUpload]; the new [audioUrl]
    gives the page an audio element that has no metadata yet. *)
Definition handleFileUpload (s : PlaybackState) : PlaybackState :=
  withAudioDuration None
    (withAudioTime zero (setDuration zero (setCurrentTime zero (setIsPlaying false s)))).

(** The audio element's own clock: its position grows up to the end of
    its media. *)
Definition mediaAdvance (dt : num) (s : PlaybackState) : PlaybackState :=
  match audioDuration s with
  | Some d => withAudioTime (nmin (audioTime s [+] dt) d) s
  | None => s
  end.

(** The body of the effect that installs the audio listeners, after
    they are installed: "force load if audio already has duration". *)
Definition listenerEffect (s : PlaybackState) : PlaybackState :=
  match loadedDuration s with
  | Some d => setDuration d s
  | None => s
  end.

(** React's comparison of a numeric dependency: equal, or both NaN. *)
Definition sameValue (a b : num) : bool :=
  (a [===] b) || (negb (a [===] a) && negb (b [===] b)).

(** The effect's dependencies [audioUrl, isPlaying, isDragging,
    duration]: whether the event changed one of them. *)
Definition depsChanged (e : event) (s s' : PlaybackState) : bool :=
  match e with FileUpload => true | _ => false end
  || negb (Bool.eqb (isPlaying s) (isPlaying s'))
  || negb (Bool.eqb (isDragging s) (isDragging s'))
  || negb (sameValue (duration s) (duration s')).

(** The handler an event reaches.  The mousemove and mouseup listeners
    exist only while [isDragging] is set; the callbacks are re-created
    whenever a value they test changes, so they test the current one. *)
Definition handle (s : PlaybackState) (e : event) : PlaybackState :=
  match e with
  | RafTick => updateTime s
  | TimeUpdate => handleTimeUpdate s
  | Ended => handleEnded s
  | LoadedMetadata d => handleLoadedMetadata d (withAudioDuration (Some d) s)
  | CanPlay => handleCanPlay s
  | DragStart pct => handleProgressDragStart pct s
  | DragMove pct => if isDragging s then handleProgressDrag pct s else s
  | DragEnd => if isDragging s then handleProgressDragEnd s else s
  | TogglePlay => togglePlayPause s
  | Restart => restart s
  | FileUpload => handleFileUpload s
  | MediaAdvance dt => mediaAdvance dt s
  | MediaLoaded d => withAudioDuration (Some d) s
  end.

(** One event: its handler, then the listener effect when the render
    that follows changed one of its dependencies. *)
Definition step (s : PlaybackState) (e : event) : PlaybackState :=
  let s' := handle s e in
  if depsChanged e s s' then listenerEffect s' else s'.

Definition run (evs : list event) (s : PlaybackState) : PlaybackState :=
  fold_left step evs s.

(** The events the audio element raises by playing, and its playing
    itself: what moves the position without the user. *)
Definition clockDriven (e : event) : bool :=
  match e with RafTick | TimeUpdate | Ended | MediaAdvance _ => true | _ => false end.
End Playback.

Arguments PlaybackState num : clear implicits.
Arguments event num : clear implicits.

(** ** Drawing geometry (ScrollingVibratoGraph.tsx: timeToX, drawGrid, the curve loops, drawPlayhead) *)

Section Geometry.
Context {num : Type} `{JsNumber num}.
Local Open Scope js_scope.

Definition PADDING : num := ofNat 40.
Definition HEIGHT_PITCH : num := ofNat 200.
Definition HEIGHT_VOLUME : num := ofNat 150.
Definition HEIGHT_CORRELATION : num := ofNat 150.

(** A negative integer literal. *)
Definition negLit (n : nat) : num := zero [-] ofNat n.

(** The closure [timeToX] of the rendering effect, with the variables it
    captures as arguments. *)
Definition timeToX (timeStart timeEnd width time : num) : num :=
  let normalizedTime := (time [-] timeStart) [/] (timeEnd [-] timeStart) in
  PADDING [+] normalizedTime [*] (width [-] ofNat 2 [*] PADDING).

(** The x position handed to [drawPlayhead]. *)
Definition playheadX (width : num) : num := width [-] PADDING [-] ofNat 10.

(** [Math.max(PADDING, Math.min(height - PADDING, y))]. *)
Definition clampY (height y : num) : num :=
  nmax PADDING (nmin (height [-] PADDING) y).

(** The y of a curve point in [drawPitchDeviation]. *)
Definition pitchY (height v : num) : num :=
  let centerY := height [/] ofNat 2 in
  let scale := (height [-] ofNat 2 [*] PADDING) [/] ofNat 400 in
  clampY height (centerY [-] v [*] scale).

(** The y of a curve point in [drawAmplitude]. *)
Definition volumeY (height v : num) : num :=
  let centerY := height [/] ofNat 2 in
  let scale := (height [-] ofNat 2 [*] PADDING) [/] ofNat 40 in
  clampY height (centerY [-] v [*] scale).

(** The y of the two curves of [drawCorrelation]. *)
Definition overlayPitchY (height v : num) : num :=
  let centerY := height [/] ofNat 2 in
  let pitchScale := (height [-] ofNat 2 [*] PADDING) [/] ofNat 200 in
  clampY height (centerY [-] v [*] pitchScale).

Definition overlayAmpY (height v : num) : num :=
  let centerY := height [/] ofNat 2 in
  let ampScale := (height [-] ofNat 2 [*] PADDING) [/] ofNat 200 in
  clampY height (centerY [-] (v [*] ofNat 5) [*] ampScale).

(** [drawGrid]: the y of the [i]-th horizontal line and label, for a
    label array of [count] entries. *)
Definition gridY (height : num) (count i : nat) : num :=
  PADDING [+] ((height [-] ofNat 2 [*] PADDING) [/] (ofNat count [-] ofNat 1)) [*] ofNat i.

(** The index of the emphasised line, [Math.floor(yLabels.length / 2)]. *)
Definition centerIdx (count : nat) : nat := count / 2.

Definition gridCenterY (height : num) (count : nat) : num :=
  gridY height count (centerIdx count).

(** The label arrays passed to [drawGrid] for the three panels. *)
Definition pitchLabels : list num :=
  [negLit 200; negLit 100; ofNat 0; ofNat 100; ofNat 200].
Definition volumeLabels : list num :=
  [negLit 20; negLit 10; ofNat 0; ofNat 10; ofNat 20].
Definition overlayLabels : list num :=
  [negLit 100; negLit 50; ofNat 0; ofNat 50; ofNat 100].
End Geometry.

(** ** Transport display (App.tsx: the progress bar and the statistics) *)

Section Transport.
Context {num : Type} `{JsNumber num}.
Local Open Scope js_scope.

(** The percentage in the width of the progress fill and in the left
    offset of the handle. *)
Definition progressPercent (s : PlaybackState num) : num :=
  if duration s [>] zero
  then (currentTime s [/] duration s) [*] ofNat 100
  else zero.

(** The number behind the "Vibrato Rate" statistic, before [toFixed(2)]. *)
Definition vibratoRate (data : AnalysisData num) (dur : num) : num :=
  if dur [>] zero then ofNat (oscillations data) [/] dur else zero.
End Transport.

(** ** Vocabulary of the statements *)

(** All entries equal: the slice has zero variance. *)
Definition constantSlice (x : list R) : Prop :=
  forall a b, In a x -> In b x -> a = b.

(** Two different entries: the slice is not constant. *)
Definition nonConstant (x : list R) : Prop :=
  exists a b, In a x /\ In b x /\ a <> b.

(** The Cauchy-Schwarz inequality as an invariant of the accumulators. *)
Definition csInv (s : sums R) : Prop :=
  (numerator s * numerator s <= denomX s * denomY s
   /\ 0 <= denomX s /\ 0 <= denomY s)%R.

(** [k] is the first index of [l] whose element passes [p]. *)
Definition firstIndexWith (A : Type) (p : A -> bool) (l : list A) (k : Z) : Prop :=
  (0 <= k < Z.of_nat (length l))%Z
  /\ (exists a, nth_error l (Z.to_nat k) = Some a /\ p a = true)
  /\ (forall j a, (j < Z.to_nat k)%nat -> nth_error l j = Some a -> p a = false).

(** No element of [l] passes [p]. *)
Definition noIndexWith (A : Type) (p : A -> bool) (l : list A) : Prop :=
  forall a, In a l -> p a = false.

(** Every frame index read by the operations is an index of the arrays. *)
Definition readsWithin (num : Type) (n : nat) (ops : list (drawOp num)) : Prop :=
  Forall (fun op => Forall (fun i => i < n) (indicesRead op)) ops.

(** The seconds the audio element plays during a run of events. *)
Definition elapsed (evs : list (event R)) : R :=
  fold_right (fun e acc => match e with MediaAdvance dt => (dt + acc)%R | _ => acc end) 0%R evs.

(** A run of the clock-driven events other than [Ended]: animation
    frames and timeupdate events while the audio element plays forward. *)
Definition forwardClock (evs : list (event R)) : Prop :=
  Forall (fun e => clockDriven e = true
                   /\ match e with
                      | MediaAdvance dt => (0 <= dt)%R
                      | Ended => False
                      | _ => True
                      end) evs.

(** The position a drag at fraction [pct] of the bar seeks to. *)
Definition dragTarget (pct dur : R) : R :=
  Rmax 0 (Rmin (Rmax 0 (Rmin 1 pct) * dur) dur).

(** [i] is listed among the detected peaks of a result. *)
Definition isPeak (num : Type) (d : AnalysisData num) (i : nat) : bool :=
  existsb (Nat.eqb i) (peaks d).

Section SpecRule.
Context {num : Type} `{JsNumber num}.
Local Open Scope js_scope.

(** The rule as the specification words it, on a finished sequence:
    an interior index, strictly above both neighbours, of magnitude at
    least [minMagnitude]. *)
Definition specPeak (minMagnitude : num) (pd : list num) (i : nat) : bool :=
  (1 <=? i) && (i + 2 <=? length pd)
  && match nth_error pd i, nth_error pd (i - 1), nth_error pd (i + 1) with
     | Some v, Some l, Some r => (v [>] l) && (v [>] r) && (nabs v [>=] minMagnitude)
     | _, _, _ => false
     end.

End SpecRule.

(** The four arrays of a result have one entry per frame. *)
Definition alignedData (num : Type) (d : AnalysisData num) : Prop :=
  length (pitchDeviation d) = length (times d)
  /\ length (amplitudeDeviation d) = length (times d)
  /\ length (amplitude d) = length (times d).

(** Sample times that never decrease. *)
Definition nonDecreasing (l : list R) : Prop :=
  forall i j a b, i <= j -> nth_error l i = Some a -> nth_error l j = Some b -> (a <= b)%R.

(** The position and the audio element's position lie inside the
    media, and [duration] is either still 0 or the media's duration. *)
Definition inRange (s : PlaybackState R) : Prop :=
  match audioDuration s with
  | Some d => (0 <= audioTime s <= d)%R /\ (0 <= currentTime s <= d)%R
              /\ (duration s = 0%R \/ duration s = d)
  | None => audioTime s = 0%R /\ currentTime s = 0%R /\ duration s = 0%R
  end.

(** [duration] mirrors the duration of the audio element's media. *)
Definition synced (s : PlaybackState R) : Prop :=
  audioDuration s = Some (duration s) /\ (0 < duration s)%R.

(** What the audio element may do at a state: play forward, and report
    a duration that is not negative for freshly loaded media. *)
Definition wellBehaved (s : PlaybackState R) (e : event R) : Prop :=
  match e with
  | MediaAdvance dt => (0 <= dt)%R
  | MediaLoaded d => audioDuration s = None /\ (0 <= d)%R
  | LoadedMetadata d => (audioDuration s = None \/ audioDuration s = Some d) /\ (0 <= d)%R
  | _ => True
  end.

(** The fraction of the bar a drag position is clamped to. *)
Definition clampUnit (pct : R) : R := Rmax 0 (Rmin 1 pct).

(** A run of events in which the audio element is well behaved. *)
Fixpoint admissible (s : PlaybackState R) (evs : list (event R)) : Prop :=
  match evs with
  | [] => True
  | e :: rest => wellBehaved s e /\ admissible (step s e) rest
  end.

(** The curves among the drawing operations, with their panels. *)
Definition curvesOf (num : Type) (ops : list (drawOp num)) : list (panel * list nat) :=
  flat_map (fun op => match op with Curve p l => [(p, l)] | _ => [] end) ops.

(** A curve scale: linear inside [-range, range], pinned to the top
    edge of the band above it and to the bottom edge below it. *)
Definition saturatesAt (f : R -> R -> R) (range : R) : Prop :=
  forall h v : R,
    (80 <= h)%R ->
    ((- range <= v <= range)%R -> f h v = (h / 2 - v * (h - 80) / (2 * range))%R)
    /\ ((range <= v)%R -> f h v = 40%R)
    /\ ((v <= - range)%R -> f h v = (h - 40)%R).

(** * Properties *)

(** ** The definitions evaluated on doubles *)

Example correlation_of_a_line :
  calculateCorrelation [1; 2; 3]%float [2; 4; 6]%float = 1%float
  /\ calculateCorrelation [1; 2; 3]%float [3; 2; 1]%float = (-1)%float
  /\ calculateCorrelation [1; 2; 3; 4]%float [1; 3; 2; 4]%float = 0.8%float.
Proof. vm_compute. repeat split. Qed.

Example findIndex_first_match :
  findIndex (fun t => PrimFloat.leb 1.5 t) [0; 1; 2; 3]%float = 2%Z
  /\ findIndex (fun t => PrimFloat.leb 4 t) [0; 1; 2; 3]%float = (-1)%Z.
Proof. vm_compute. split; reflexivity. Qed.

Example render_a_resolved_tick :
  renderEffect (mkAnalysisData [0; 1; 2; 3]%float [0; 20; 0; -20]%float
                               [0; 1; 0; -1]%float [0.5; 0.5; 0.5; 0.5]%float
                               [1] [3] 1) 2%float 5%float
  = [Clear PitchPanel; Clear VolumePanel; Clear OverlayPanel;
     Grid PitchPanel; Grid VolumePanel; Grid OverlayPanel;
     Curve PitchPanel [0; 1; 2]; Marker true 1;
     Curve VolumePanel [0; 1; 2];
     Curve OverlayPanel [0; 1; 2];
     CorrelationLabel 0.99999999999999989%float;
     Playhead PitchPanel; Playhead VolumePanel; Playhead OverlayPanel].
Proof. vm_compute. reflexivity. Qed.

(** An upload, the metadata of a 20 s file, play, and ten seconds of
    playback up to an animation frame. *)
Example upload_then_play_on_doubles :
  run [FileUpload; LoadedMetadata 20%float; TogglePlay; MediaAdvance 10%float; RafTick]
      initialPlayback
  = mkPlayback 10%float 20%float true false 10%float (Some 20%float).
Proof. vm_compute. reflexivity. Qed.

(** Without the loadedmetadata listener the duration is picked up by
    the listener effect at the next change of [isPlaying]. *)
Example duration_picked_up_by_effect :
  duration (run [FileUpload; MediaLoaded 20%float; RafTick] initialPlayback) = 0%float
  /\ duration (run [FileUpload; MediaLoaded 20%float; TogglePlay] initialPlayback) = 20%float
  /\ duration (run [FileUpload; MediaLoaded 20%float; CanPlay] initialPlayback) = 20%float.
Proof. vm_compute. repeat split. Qed.

(** A drag to the middle of a 20 s file while playing: the position
    stays at 10 during the drag although the audio element plays on, and
    follows the audio element after the release. *)
Example drag_then_release_on_doubles :
  let s := run [FileUpload; LoadedMetadata 20%float; TogglePlay; MediaAdvance 3%float; RafTick]
               initialPlayback in
  currentTime s = 3%float
  /\ currentTime (run [DragStart 0.25%float; DragMove 0.5%float;
                       MediaAdvance 1%float; RafTick] s) = 10%float
  /\ currentTime (run [DragStart 0.25%float; DragMove 0.5%float;
                       MediaAdvance 1%float; RafTick; DragEnd;
                       MediaAdvance 2%float; RafTick] s) = 13%float.
Proof. vm_compute. repeat split. Qed.

(** ** Generic facts about loops *)

Lemma fold_left_invariant (A B : Type) (f : A -> B -> A) (I : A -> Prop) :
  (forall a b, I a -> I (f a b)) ->
  forall l a, I a -> I (fold_left f l a).
Proof.
  intros Hstep l; induction l as [|b l IH]; intros a Ha; simpl; auto.
Qed.

Lemma fold_left_invariant_in (A B : Type) (f : A -> B -> A) (I : A -> Prop) (l : list B) :
  (forall a b, In b l -> I a -> I (f a b)) ->
  forall a, I a -> I (fold_left f l a).
Proof.
  induction l as [|b l IH]; intros Hstep a Ha; simpl; auto.
  apply IH.
  - intros a' b' Hin; apply Hstep; right; assumption.
  - apply Hstep; [left; reflexivity | assumption].
Qed.

(** An invariant that also sees the elements already consumed. *)
Lemma fold_left_invariant_seen (A B : Type) (f : A -> B -> A) (I : list B -> A -> Prop) :
  (forall seen a b, I seen a -> I (seen ++ [b]) (f a b)) ->
  forall l seen a, I seen a -> I (seen ++ l) (fold_left f l a).
Proof.
  intros Hstep l; induction l as [|b l IH]; intros seen a Ha; simpl.
  - rewrite app_nil_r; assumption.
  - replace (seen ++ b :: l) with ((seen ++ [b]) ++ l)
      by (rewrite <- app_assoc; reflexivity).
    apply IH, Hstep, Ha.
Qed.

(** ** The comparisons of the exact instance *)

Lemma Reqb_true (a b : R) : Reqb a b = true <-> a = b.
Proof. unfold Reqb; destruct (Req_dec_T a b); split; congruence. Qed.

Lemma Reqb_false (a b : R) : Reqb a b = false <-> a <> b.
Proof. unfold Reqb; destruct (Req_dec_T a b); split; congruence. Qed.

Lemma Rltb_true (a b : R) : Rltb a b = true <-> (a < b)%R.
Proof. unfold Rltb; destruct (Rlt_dec a b); split; auto; discriminate. Qed.

Lemma Rltb_false (a b : R) : Rltb a b = false <-> (b <= a)%R.
Proof.
  unfold Rltb; destruct (Rlt_dec a b); split; intros; try discriminate; try lra; auto.
Qed.

Lemma Rleb_true (a b : R) : Rleb a b = true <-> (a <= b)%R.
Proof. unfold Rleb; destruct (Rle_dec a b); split; auto; discriminate. Qed.

Lemma Rleb_false (a b : R) : Rleb a b = false <-> (b < a)%R.
Proof.
  unfold Rleb; destruct (Rle_dec a b); split; intros; try discriminate; try lra; auto.
Qed.

(** ** The length guard of the correlation estimate *)

Lemma calculateCorrelation_guard (num : Type) (N : JsNumber num) (x y : list num) :
  length x <> length y \/ length x = 0 ->
  calculateCorrelation x y = zero.
Proof.
  intros Hbad. unfold calculateCorrelation.
  replace (negb (length x =? length y) || (length x =? 0)) with true; [reflexivity|].
  symmetry. apply orb_true_iff.
  destruct Hbad as [Hne | Hz].
  - left. apply negb_true_iff, Nat.eqb_neq. assumption.
  - right. apply Nat.eqb_eq. assumption.
Qed.

(** ** Correlation in exact arithmetic *)

Section ExactCorrelation.
Local Open Scope R_scope.

Lemma cs_step (p dX dY a b : R) :
  p * p <= dX * dY -> 0 <= dX -> 0 <= dY ->
  (p + a * b) * (p + a * b) <= (dX + a * a) * (dY + b * b).
Proof.
  intros Hp HX HY.
  assert (Hcross : 2 * p * (a * b) <= dX * (b * b) + (a * a) * dY).
  { set (u := 2 * p * (a * b)).
    set (v := dX * (b * b) + a * a * dY).
    assert (Hv : 0 <= v) by (unfold v; nra).
    assert (Huv : u * u <= v * v).
    { unfold u, v.
      pose proof (Rle_0_sqr (dX * (b * b) - a * a * dY)) as Hsq.
      pose proof (Rle_0_sqr (a * b)) as Hab.
      unfold Rsqr in Hsq, Hab.
      pose proof (Rmult_le_compat_r _ _ _ Hab Hp) as Hmul.
      replace (2 * p * (a * b) * (2 * p * (a * b)))
        with (4 * (p * p * (a * b * (a * b)))) by ring.
      replace ((dX * (b * b) + a * a * dY) * (dX * (b * b) + a * a * dY))
        with (4 * (dX * dY * (a * b * (a * b)))
              + (dX * (b * b) - a * a * dY) * (dX * (b * b) - a * a * dY)) by ring.
      lra. }
    destruct (Rle_or_lt u v) as [|Hlt]; [assumption|].
    exfalso. nra. }
  nra.
Qed.

Lemma corrStep_csInv (x y : list R) (mx my : R) (s : sums R) (i : nat) :
  csInv s -> csInv (corrStep x y mx my s i).
Proof.
  unfold csInv, corrStep; cbn. intros (Hp & HX & HY).
  generalize (nth i x 0 - mx) (nth i y 0 - my); intros a b.
  repeat split.
  - apply cs_step; assumption.
  - pose proof (Rle_0_sqr a) as Ha; unfold Rsqr in Ha; lra.
  - pose proof (Rle_0_sqr b) as Hb; unfold Rsqr in Hb; lra.
Qed.

Lemma corrLoop_csInv (x y : list R) : csInv (corrLoop x y).
Proof.
  unfold corrLoop. apply fold_left_invariant.
  - intros; apply corrStep_csInv; assumption.
  - unfold csInv; cbn; lra.
Qed.

(** *** The result is a correlation coefficient *)

Lemma correlation_exact_range (x y : list R) :
  -1 <= calculateCorrelation x y <= 1.
Proof.
  unfold calculateCorrelation.
  destruct (negb (length x =? length y) || (length x =? 0))%nat; [cbn; lra|].
  cbv zeta.
  destruct (corrLoop_csInv x y) as (Hp & HX & HY).
  set (s := corrLoop x y) in *.
  destruct ((denomX s [===] zero) || (denomY s [===] zero))%js eqn:Hz; [cbn; lra|].
  apply orb_false_iff in Hz; destruct Hz as [HzX HzY]; cbn in HzX, HzY.
  apply Reqb_false in HzX; apply Reqb_false in HzY.
  cbn.
  assert (Hpos : 0 < denomX s * denomY s) by (apply Rmult_lt_0_compat; lra).
  assert (Hs : 0 < sqrt (denomX s * denomY s)) by (apply sqrt_lt_R0; assumption).
  assert (Habs : Rabs (numerator s) <= sqrt (denomX s * denomY s)).
  { rewrite <- sqrt_Rsqr_abs. apply sqrt_le_1_alt. unfold Rsqr. assumption. }
  pose proof (Rle_abs (numerator s)) as Hup.
  pose proof (Rle_abs (- numerator s)) as Hlo; rewrite Rabs_Ropp in Hlo.
  split.
  - apply Rmult_le_reg_r with (sqrt (denomX s * denomY s)); [assumption|].
    unfold Rdiv; rewrite Rmult_assoc, Rinv_l by lra. lra.
  - apply Rmult_le_reg_r with (sqrt (denomX s * denomY s)); [assumption|].
    unfold Rdiv; rewrite Rmult_assoc, Rinv_l by lra. lra.
Qed.

(** *** Zero variance *)

Lemma sum_constant (c : R) (x : list R) :
  (forall a, In a x -> a = c) ->
  forall acc, fold_left Rplus x acc = acc + INR (length x) * c.
Proof.
  induction x as [|a x IH]; intros Hc acc.
  - simpl; lra.
  - cbn [fold_left length]. rewrite IH by (intros; apply Hc; right; assumption).
    rewrite (Hc a) by (left; reflexivity). rewrite S_INR. lra.
Qed.

Lemma mean_constant (x : list R) (a : R) :
  constantSlice x -> In a x -> mean x = a.
Proof.
  intros Hc Ha. unfold mean; cbn.
  rewrite (sum_constant (c := a)) by (intros b Hb; apply Hc; assumption).
  assert (Hn : INR (length x) <> 0).
  { apply not_0_INR. destruct x; [contradiction | discriminate]. }
  field; assumption.
Qed.

Lemma corrLoop_denomX_constant (x y : list R) :
  constantSlice x -> denomX (corrLoop x y) = 0.
Proof.
  intros Hc. unfold corrLoop.
  apply fold_left_invariant_in with (I := fun s => denomX s = 0); [|reflexivity].
  intros s i Hi Hs. apply in_seq in Hi. cbn -[mean].
  rewrite Hs.
  rewrite (@mean_constant x (nth i x 0) Hc) by (apply nth_In; lia).
  lra.
Qed.

Lemma corrLoop_denomY_constant (x y : list R) :
  length x = length y -> constantSlice y -> denomY (corrLoop x y) = 0.
Proof.
  intros Hlen Hc. unfold corrLoop.
  apply fold_left_invariant_in with (I := fun s => denomY s = 0); [|reflexivity].
  intros s i Hi Hs. apply in_seq in Hi. cbn -[mean].
  rewrite Hs.
  rewrite (@mean_constant y (nth i y 0) Hc) by (apply nth_In; lia).
  lra.
Qed.

Lemma correlation_exact_zero_variance (x y : list R) :
  length x = length y ->
  constantSlice x \/ constantSlice y ->
  calculateCorrelation x y = 0.
Proof.
  intros Hlen Hc. unfold calculateCorrelation.
  destruct (negb (length x =? length y) || (length x =? 0))%nat; [reflexivity|].
  cbv zeta.
  replace ((denomX (corrLoop x y) [===] zero) || (denomY (corrLoop x y) [===] zero))%js
    with true; [reflexivity|].
  symmetry; apply orb_true_iff; cbn.
  destruct Hc as [Hc|Hc]; [left|right]; apply Reqb_true.
  - apply corrLoop_denomX_constant; assumption.
  - apply corrLoop_denomY_constant; assumption.
Qed.

(** *** A slice against itself *)

Lemma corrLoop_self (x : list R) :
  let s := corrLoop x x in numerator s = denomX s /\ denomY s = denomX s.
Proof.
  unfold corrLoop.
  apply fold_left_invariant
    with (I := fun s : sums R => numerator s = denomX s /\ denomY s = denomX s).
  - intros s i [Hn Hd]; cbn; rewrite Hn, Hd; split; reflexivity.
  - split; reflexivity.
Qed.

Lemma corrLoop_denomX_zero (x y : list R) :
  denomX (corrLoop x y) = 0 ->
  forall i, (i < length x)%nat -> nth i x 0 = mean x.
Proof.
  intros Hz.
  assert (Hinv : 0 <= denomX (corrLoop x y)
                 /\ (denomX (corrLoop x y) = 0 ->
                     forall i, In i ([] ++ seq 0 (length x)) -> nth i x 0 = mean x)).
  { unfold corrLoop.
    apply fold_left_invariant_seen
      with (I := fun seen (s : sums R) =>
                   0 <= denomX s
                   /\ (denomX s = 0 -> forall i, In i seen -> nth i x 0 = mean x)).
    - intros seen s i [Hge Hall]; cbn -[mean].
      pose proof (Rle_0_sqr (nth i x 0 - mean x)) as Hsq; unfold Rsqr in Hsq.
      split; [lra|].
      intros Hsum j Hj.
      assert (Hd : denomX s = 0) by lra.
      assert (Hi : (nth i x 0 - mean x) * (nth i x 0 - mean x) = 0) by lra.
      apply in_app_or in Hj; destruct Hj as [Hj|[Hj|[]]].
      + apply Hall; assumption.
      + subst j. apply Rmult_integral in Hi. destruct Hi; lra.
    - cbn -[mean]; split; [lra | intros _ i []]. }
  intros i Hi. apply (proj2 Hinv Hz). cbn. apply in_seq. lia.
Qed.

Lemma nonConstant_denomX (x : list R) :
  nonConstant x -> 0 < denomX (corrLoop x x).
Proof.
  intros (a & b & Ha & Hb & Hab).
  destruct (corrLoop_csInv x x) as (_ & HX & _).
  destruct (Req_dec (denomX (corrLoop x x)) 0) as [Hz|Hnz]; [exfalso | lra].
  apply In_nth with (d := 0) in Ha; destruct Ha as (i & Hi & Hai).
  apply In_nth with (d := 0) in Hb; destruct Hb as (j & Hj & Hbj).
  pose proof (corrLoop_denomX_zero x x Hz Hi) as Ei.
  pose proof (corrLoop_denomX_zero x x Hz Hj) as Ej.
  apply Hab. rewrite <- Hai, <- Hbj. congruence.
Qed.

Lemma correlation_exact_self (x : list R) :
  nonConstant x -> calculateCorrelation x x = 1.
Proof.
  intros Hnc.
  pose proof (nonConstant_denomX Hnc) as Hpos.
  destruct (corrLoop_self x) as [Hn Hd].
  unfold calculateCorrelation.
  rewrite Nat.eqb_refl.
  assert (Hlen : (length x =? 0)%nat = false).
  { destruct Hnc as (a & _ & Ha & _). destruct x; [contradiction | reflexivity]. }
  rewrite Hlen. cbv zeta. cbn [negb orb].
  rewrite Hd, Hn.
  generalize dependent (denomX (corrLoop x x)); intros d Hpos _ _.
  cbn.
  assert (Hz : Reqb d 0 = false) by (apply Reqb_false; lra).
  rewrite Hz; cbn.
  rewrite sqrt_square by lra.
  field; lra.
Qed.
End ExactCorrelation.

(** ** The extrema scan of the mock generator *)

Section ScanFacts.
Context {num : Type} `{JsNumber num}.
Variable frameAt : nat -> frame num.
Variable numFrames : nat.

Lemma scanAfter_S (k : nat) :
  scanAfter frameAt numFrames (S k) = mockBody frameAt numFrames (scanAfter frameAt numFrames k) k.
Proof.
  unfold scanAfter. rewrite seq_S, fold_left_app. reflexivity.
Qed.

Lemma jsGt_undefined (a : option num) : jsGt a None = false.
Proof. destruct a; reflexivity. Qed.

Lemma jsLt_undefined (a : option num) : jsLt a None = false.
Proof. destruct a; reflexivity. Qed.

(** On an array of [i + 1] elements the read at [i + 1] is undefined,
    so neither test can pass. *)
Lemma arrayRead_past_end (pd : list num) (i : nat) :
  length pd = S i -> arrayRead pd (Z.of_nat i + 1) = None.
Proof.
  intros Hlen. unfold arrayRead.
  replace (Z.of_nat i + 1 <? 0)%Z with false by (symmetry; apply Z.ltb_ge; lia).
  apply nth_error_None. lia.
Qed.

Lemma peakTest_lookahead (pd : list num) (i : nat) :
  length pd = S i -> peakTest pd i = false.
Proof.
  intros Hlen. unfold peakTest. cbv zeta.
  rewrite (arrayRead_past_end pd Hlen), jsGt_undefined, andb_false_r. reflexivity.
Qed.

Lemma troughTest_lookahead (pd : list num) (i : nat) :
  length pd = S i -> troughTest pd i = false.
Proof.
  intros Hlen. unfold troughTest. cbv zeta.
  rewrite (arrayRead_past_end pd Hlen), jsLt_undefined, andb_false_r. reflexivity.
Qed.

Lemma scanAfter_shape (k : nat) :
  let st := scanAfter frameAt numFrames k in
  scTimes st = map (fun i => frameTime (frameAt i)) (seq 0 k)
  /\ scPitchDeviation st = map (fun i => framePitch (frameAt i)) (seq 0 k)
  /\ scAmplitudeDeviation st = map (fun i => frameAmpDeviation (frameAt i)) (seq 0 k)
  /\ scAmplitude st = map (fun i => frameAmplitude (frameAt i)) (seq 0 k)
  /\ scPeaks st = []
  /\ scTroughs st = [].
Proof.
  induction k as [|k IH].
  - cbn. repeat split.
  - rewrite scanAfter_S. cbv zeta in IH.
    destruct IH as (Ht & Hp & Had & Ha & Hpk & Htr).
    cbv zeta. unfold mockBody; cbn [scTimes scPitchDeviation scAmplitudeDeviation
                                   scAmplitude scPeaks scTroughs].
    rewrite seq_S, !map_app; cbn [map Nat.add].
    rewrite Ht, Hp, Had, Ha, Hpk, Htr.
    assert (Hlen : length (map (fun i => framePitch (frameAt i)) (seq 0 k)
                           ++ [framePitch (frameAt k)]) = S k).
    { rewrite length_app, length_map, length_seq; cbn; lia. }
    rewrite (peakTest_lookahead _ Hlen), (troughTest_lookahead _ Hlen).
    rewrite !andb_false_r. repeat split.
Qed.

(** The generator's result never lists an extremum: frame [i + 1] is
    read before it has been pushed. *)
Lemma mockResult_no_extrema :
  peaks (mockResult frameAt numFrames) = []
  /\ troughs (mockResult frameAt numFrames) = []
  /\ oscillations (mockResult frameAt numFrames) = 0.
Proof.
  destruct (scanAfter_shape numFrames) as (_ & _ & _ & _ & Hpk & Htr).
  unfold mockResult, mockLoop; cbn.
  rewrite Hpk, Htr. repeat split.
Qed.

Lemma mockResult_pitchDeviation :
  pitchDeviation (mockResult frameAt numFrames)
  = map (fun i => framePitch (frameAt i)) (seq 0 numFrames).
Proof.
  destruct (scanAfter_shape numFrames) as (_ & Hp & _).
  unfold mockResult, mockLoop; cbn. exact Hp.
Qed.

Lemma mockResult_lengths :
  let d := mockResult frameAt numFrames in
  length (times d) = numFrames
  /\ length (pitchDeviation d) = numFrames
  /\ length (amplitudeDeviation d) = numFrames
  /\ length (amplitude d) = numFrames.
Proof.
  destruct (scanAfter_shape numFrames) as (Ht & Hp & Had & Ha & _).
  unfold mockResult, mockLoop; cbn.
  rewrite Ht, Hp, Had, Ha, !length_map, !length_seq. repeat split.
Qed.
End ScanFacts.

(** ** The visible window and the renderer *)

Section RendererFacts.
Context {num : Type} `{JsNumber num}.

Lemma findIndexFrom_spec (p : num -> bool) (l : list num) :
  forall i : Z,
    (findIndexFrom p l i = -1 /\ noIndexWith p l)%Z
    \/ exists k : nat,
         findIndexFrom p l i = (i + Z.of_nat k)%Z
         /\ k < length l
         /\ (exists a, nth_error l k = Some a /\ p a = true)
         /\ (forall j a, j < k -> nth_error l j = Some a -> p a = false).
Proof.
  induction l as [|a l IH]; intros i.
  - left; split; [reflexivity | intros a []].
  - cbn [findIndexFrom]. destruct (p a) eqn:Hpa.
    + right. exists 0. repeat split.
      * lia.
      * cbn; lia.
      * exists a; split; [reflexivity | assumption].
      * intros j b Hj; lia.
    + destruct (IH (i + 1)%Z) as [[Hnone Hall] | (k & Hk & Hlt & Hhit & Hfirst)].
      * left; split; [assumption|].
        intros b [Hb|Hb]; [subst b; assumption | apply Hall; assumption].
      * right. exists (S k). repeat split.
        -- rewrite Hk; lia.
        -- cbn; lia.
        -- exact Hhit.
        -- intros j b Hj Hnth. destruct j as [|j].
           ++ cbn in Hnth; injection Hnth as <-; assumption.
           ++ apply (Hfirst j); [lia | exact Hnth].
Qed.

Lemma findIndex_spec (p : num -> bool) (l : list num) :
  (findIndex p l = (-1)%Z /\ noIndexWith p l) \/ firstIndexWith p l (findIndex p l).
Proof.
  unfold findIndex.
  destruct (findIndexFrom_spec p l 0) as [Hnone | (k & Hk & Hlt & Hhit & Hfirst)].
  - left; exact Hnone.
  - right. rewrite Hk. unfold firstIndexWith.
    replace (Z.to_nat (0 + Z.of_nat k)) with k by lia.
    repeat split; [lia | lia | exact Hhit | exact Hfirst].
Qed.

(** A resolved index is an index of the array. *)
Lemma findIndex_range (p : num -> bool) (l : list num) :
  findIndex p l <> (-1)%Z -> Z.to_nat (findIndex p l) < length l.
Proof.
  intros Hne. destruct (findIndex_spec p l) as [[Hm _] | ((H0 & Hlt) & _)]; [contradiction | lia].
Qed.

Lemma curveIndices_within (startIdx endIdx n i : nat) :
  In i (curveIndices startIdx endIdx n) -> startIdx <= i <= endIdx /\ i < n.
Proof. unfold curveIndices; intros Hi; apply in_seq in Hi; lia. Qed.

Lemma markers_within (isPeak : bool) (idxs : list nat) (startIdx endIdx n : nat) :
  endIdx < n -> readsWithin n (markers (num := num) isPeak idxs startIdx endIdx).
Proof.
  intros He. unfold readsWithin, markers. apply Forall_forall.
  intros op Hop. apply in_map_iff in Hop. destruct Hop as (idx & <- & Hin).
  apply filter_In in Hin. destruct Hin as [_ Hb].
  apply andb_true_iff in Hb. destruct Hb as [_ Hle]. apply Nat.leb_le in Hle.
  cbn. constructor; [lia | constructor].
Qed.

Lemma curve_within (p : panel) (startIdx endIdx n : nat) :
  readsWithin (num := num) n [Curve p (curveIndices startIdx endIdx n)].
Proof.
  unfold readsWithin. constructor; [|constructor]. cbn.
  apply Forall_forall. intros i Hi. apply curveIndices_within in Hi. lia.
Qed.

Lemma readsWithin_app (n : nat) (a b : list (drawOp num)) :
  readsWithin n a -> readsWithin n b -> readsWithin n (a ++ b).
Proof. unfold readsWithin; intros; apply Forall_app; split; assumption. Qed.

Lemma renderEffect_unresolved (data : AnalysisData num) (currentTime windowSize : num) :
  startIdxOf data currentTime windowSize = (-1)%Z \/ endIdxOf data currentTime = (-1)%Z ->
  renderEffect data currentTime windowSize = [].
Proof.
  intros Hun. unfold renderEffect.
  destruct (length (times data) =? 0); [reflexivity|].
  cbv zeta.
  destruct Hun as [-> | ->]; cbn [Z.eqb orb]; [reflexivity|].
  rewrite orb_true_r. reflexivity.
Qed.

(** On a tick that is drawn, only existing frames are read. *)
Lemma renderEffect_reads_within (data : AnalysisData num) (currentTime windowSize : num) :
  readsWithin (length (times data)) (renderEffect data currentTime windowSize).
Proof.
  unfold renderEffect.
  destruct (length (times data) =? 0); [constructor|].
  cbv zeta.
  destruct (startIdxOf data currentTime windowSize =? -1)%Z eqn:Hs; [constructor|].
  destruct (endIdxOf data currentTime =? -1)%Z eqn:He; [constructor|].
  cbn [orb].
  apply Z.eqb_neq in Hs, He.
  apply findIndex_range in He.
  set (s := Z.to_nat (startIdxOf data currentTime windowSize)).
  set (e := Z.to_nat (endIdxOf data currentTime)).
  fold e in He.
  repeat apply readsWithin_app.
  - repeat constructor.
  - unfold drawPitchDeviation.
    apply (readsWithin_app (a := [Curve PitchPanel _])); [apply curve_within|].
    apply readsWithin_app; apply markers_within; exact He.
  - apply curve_within.
  - unfold drawCorrelation.
    apply (readsWithin_app (a := [Curve OverlayPanel _])); [apply curve_within|].
    destruct (s <? e); repeat constructor.
  - repeat constructor.
Qed.

(** A tick whose two indices resolve is drawn: the effect goes on to
    clear the canvases. *)
Lemma renderEffect_resolved (data : AnalysisData num) (currentTime windowSize : num) :
  startIdxOf data currentTime windowSize <> (-1)%Z -> endIdxOf data currentTime <> (-1)%Z ->
  hd_error (renderEffect data currentTime windowSize) = Some (Clear PitchPanel).
Proof.
  intros Hs He. unfold renderEffect.
  pose proof (findIndex_range _ _ He) as Hlen.
  destruct (length (times data)) eqn:El; [lia|]. cbn [Nat.eqb]. cbv zeta.
  apply Z.eqb_neq in Hs, He. rewrite Hs, He. reflexivity.
Qed.

Lemma findIndex_head (p : num -> bool) (a : num) (l : list num) :
  p a = true -> findIndex p (a :: l) = 0%Z.
Proof. intros Hp. unfold findIndex. cbn [findIndexFrom]. rewrite Hp. reflexivity. Qed.

Lemma findIndex_unresolved (p : num -> bool) (l : list num) :
  findIndex p l = (-1)%Z <-> noIndexWith p l.
Proof.
  destruct (findIndex_spec p l) as [[Hm Hnone] | ((H0 & Hlt) & (a & Ha & Hpa) & _)].
  - tauto.
  - split; [lia|]. intros Hnone. apply nth_error_In in Ha.
    rewrite (Hnone a Ha) in Hpa. discriminate.
Qed.
End RendererFacts.

(** ** Playback clock and drag *)

Section PlaybackFacts.
Context {num : Type} `{JsNumber num}.

Lemma sameValue_refl (a : num) : sameValue a a = true.
Proof. unfold sameValue. destruct (eqb a a); reflexivity. Qed.

(** An event that changes none of [isPlaying], [isDragging] and
    [duration] does not re-run the listener effect. *)
Lemma step_same_deps (s : PlaybackState num) (e : event num) :
  isPlaying (handle s e) = isPlaying s ->
  isDragging (handle s e) = isDragging s ->
  duration (handle s e) = duration s ->
  step s e = handle s e.
Proof.
  intros Hp Hd Hdur. unfold step, depsChanged. cbv zeta.
  rewrite Hp, Hd, Hdur, sameValue_refl, !Bool.eqb_reflx.
  destruct e; reflexivity.
Qed.

(** The animation-frame and timeupdate callbacks test [isDragging], and
    the audio element playing on moves only its own position. *)
Lemma guarded_step_during_drag (s : PlaybackState num) (e : event num) :
  isDragging s = true ->
  match e with RafTick | TimeUpdate | MediaAdvance _ => True | _ => False end ->
  currentTime (step s e) = currentTime s
  /\ duration (step s e) = duration s
  /\ isPlaying (step s e) = isPlaying s
  /\ isDragging (step s e) = true
  /\ audioDuration (step s e) = audioDuration s.
Proof.
  intros Hd He.
  assert (Hh : currentTime (handle s e) = currentTime s
               /\ duration (handle s e) = duration s
               /\ isPlaying (handle s e) = isPlaying s
               /\ isDragging (handle s e) = isDragging s
               /\ audioDuration (handle s e) = audioDuration s).
  { destruct e; try contradiction; cbn [handle].
    - unfold updateTime. rewrite Hd, andb_false_r. repeat split; assumption.
    - unfold handleTimeUpdate. rewrite Hd, andb_false_r. repeat split; assumption.
    - unfold mediaAdvance. destruct (audioDuration s) eqn:Ea; repeat split; assumption. }
  destruct Hh as (Hc & Hdur & Hp & Hg & Ha).
  rewrite step_same_deps by assumption.
  rewrite Hc, Hdur, Hp, Hg, Ha, Hd. repeat split.
Qed.

(** The ended handler has no such test: it writes [currentTime]
    whether or not a drag is active. *)
Lemma ended_step_writes (s : PlaybackState num) :
  currentTime (step s Ended) = durationOrZero s
  /\ isDragging (step s Ended) = isDragging s
  /\ isPlaying (step s Ended) = false.
Proof.
  unfold step. cbv zeta. cbn [handle].
  destruct (depsChanged Ended s (handleEnded s)).
  - unfold listenerEffect, loadedDuration, handleEnded, durationOrZero.
    cbn [audioDuration setCurrentTime setIsPlaying].
    destruct (audioDuration s) as [d|]; [|repeat split].
    destruct (truthy d && isFinite d); repeat split.
  - repeat split.
Qed.
End PlaybackFacts.

(** ** The values of the mock generator, in exact arithmetic *)

Section ExactMock.
Local Open Scope R_scope.

Lemma mockFrame_exact (i : nat) :
  let time := INR i * 512 / 44100 in
  let vibratoRate := 55 / 10 + sin (time * (5 / 10)) * (5 / 10) in
  let vibratoWidth := 30 + sin (time * (3 / 10)) * 20 in
  let pitch := vibratoWidth * sin (2 * PI * vibratoRate * time) in
  mockFrame sin PI i
  = mkFrame time pitch
            (pitch / 30 * 5 + sin (2 * PI * vibratoRate * time + 3 / 10) * 3)
            (Rmax 0 (5 / 10 + sin (time * (7 / 10)) * (3 / 10) + pitch / 100 * (2 / 10))).
Proof.
  cbv zeta. unfold mockFrame, dec.
  cbn [ofNat exact zero add sub mul div nmax].
  change (INR 512) with (INR (Z.to_nat 512)).
  change (INR 44100) with (INR (Z.to_nat 44100)).
  change (INR 55) with (INR (Z.to_nat 55)).
  change (INR 10) with (INR (Z.to_nat 10)).
  change (INR 5) with (INR (Z.to_nat 5)).
  change (INR 3) with (INR (Z.to_nat 3)).
  change (INR 30) with (INR (Z.to_nat 30)).
  change (INR 20) with (INR (Z.to_nat 20)).
  change (INR 2) with (INR (Z.to_nat 2)).
  change (INR 7) with (INR (Z.to_nat 7)).
  change (INR 100) with (INR (Z.to_nat 100)).
  rewrite !INR_IZR_INZ, !Z2Nat.id by lia.
  rewrite <- INR_IZR_INZ.
  reflexivity.
Qed.

Lemma mockFrame_bounds (i : nat) :
  let f := mockFrame sin PI i in
  frameTime f = INR i * 512 / 44100
  /\ -50 <= framePitch f <= 50
  /\ -(34 / 3) <= frameAmpDeviation f <= 34 / 3
  /\ 1 / 10 <= frameAmplitude f <= 9 / 10.
Proof.
  cbv zeta. rewrite mockFrame_exact. cbn [frameTime framePitch frameAmpDeviation frameAmplitude].
  set (time := INR i * 512 / 44100).
  set (rate := 55 / 10 + sin (time * (5 / 10)) * (5 / 10)).
  pose proof (SIN_bound (time * (3 / 10))) as Hw.
  pose proof (SIN_bound (2 * PI * rate * time)) as Hp.
  pose proof (SIN_bound (2 * PI * rate * time + 3 / 10)) as Ha.
  pose proof (SIN_bound (time * (7 / 10))) as Hb.
  set (sw := sin (time * (3 / 10))) in *.
  set (sp := sin (2 * PI * rate * time)) in *.
  set (sa := sin (2 * PI * rate * time + 3 / 10)) in *.
  set (sb := sin (time * (7 / 10))) in *.
  assert (Hpitch : -50 <= (30 + sw * 20) * sp <= 50) by (split; nra).
  set (pitch := (30 + sw * 20) * sp) in *.
  split; [reflexivity|].
  split; [assumption|].
  split; [lra|].
  rewrite Rmax_right by lra. lra.
Qed.
End ExactMock.

(** ** A peak among the generated frames, in exact arithmetic *)

Section GeneratedPeak.
Local Open Scope R_scope.

Lemma cos_quadratic_bounds (a : R) :
  - PI / 2 <= a -> a <= PI / 2 ->
  1 - a * a / 2 <= cos a <= 1 - a * a / 2 + a * a * a * a / 24.
Proof.
  intros Hlo Hhi. pose proof (cos_bound a 0 Hlo Hhi) as Hb.
  unfold cos_approx, cos_term in Hb. simpl in Hb. lra.
Qed.

Lemma sin_small (x : R) : 0 < x -> x <= 1 -> 0 < sin x < x.
Proof.
  intros H0 H1. pose proof PI2_3_2. split.
  - apply sin_gt_0; lra.
  - apply sin_lt_x; assumption.
Qed.

(** The pitch of an early frame: a width just above 30 times the sine
    of [PI * u], with [u] just above 11 times the frame's time. *)
Lemma early_frame_pitch (i : nat) (t : R) :
  t = INR i * 512 / 44100 -> 0 < t -> t <= 1 / 10 ->
  exists w u : R,
    framePitch (mockFrame sin PI i) = w * sin (PI * u)
    /\ 30 < w < 30 + 6 * t
    /\ 11 * t < u < (11 + t / 2) * t.
Proof.
  intros Ht H0 H1. rewrite mockFrame_exact. cbn [framePitch]. rewrite <- Ht.
  exists (30 + sin (t * (3 / 10)) * 20), (2 * (55 / 10 + sin (t * (5 / 10)) * (5 / 10)) * t).
  split; [f_equal; f_equal; ring|].
  destruct (@sin_small (t * (3 / 10))) as [Hw0 Hw1]; [lra | lra|].
  destruct (@sin_small (t * (5 / 10))) as [Hr0 Hr1]; [lra | lra|].
  repeat split; nra.
Qed.

(** sin (PI * u) as the cosine of the distance of [PI * u] from PI / 2. *)
Lemma sin_as_cos (u : R) : sin (PI * u) = cos (PI * (u - 1 / 2)).
Proof.
  rewrite <- (cos_shift (PI * u)). rewrite <- cos_neg. f_equal. lra.
Qed.

Lemma frame4_pitch : 299 / 10 < framePitch (mockFrame sin PI 4).
Proof.
  destruct (@early_frame_pitch 4 (2048 / 44100)) as (w & u & -> & Hw & Hu);
    [simpl; lra | lra | lra |].
  rewrite sin_as_cos.
  pose proof PI2_3_2 as Hpi3. pose proof PI_4 as Hpi4.
  set (a := PI * (u - 1 / 2)).
  assert (Ha : 0 <= a <= 48 / 1000) by (unfold a; split; nra).
  destruct (@cos_quadratic_bounds a) as [Hc _]; [lra | lra|].
  assert (Hc' : 998 / 1000 <= cos a) by nra.
  nra.
Qed.

Lemma frame3_pitch : framePitch (mockFrame sin PI 3) < 29.
Proof.
  destruct (@early_frame_pitch 3 (1536 / 44100)) as (w & u & -> & Hw & Hu);
    [simpl; lra | lra | lra |].
  rewrite sin_as_cos, <- cos_neg.
  pose proof PI2_3_2 as Hpi3. pose proof PI_4 as Hpi4.
  set (a := - (PI * (u - 1 / 2))).
  assert (Ha : 348 / 1000 <= a <= 468 / 1000) by (unfold a; split; nra).
  destruct (@cos_quadratic_bounds a) as [_ Hc]; [lra | lra|].
  assert (Hq : 348 / 1000 * (348 / 1000) <= a * a <= 468 / 1000 * (468 / 1000)) by (split; nra).
  replace (a * a * a * a) with (a * a * (a * a)) in Hc by ring.
  set (q := a * a) in *.
  assert (Hqq : q * q <= 468 / 1000 * (468 / 1000) * q) by nra.
  assert (Hc' : cos a <= 941 / 1000) by lra.
  nra.
Qed.

Lemma frame5_pitch : framePitch (mockFrame sin PI 5) < 29.
Proof.
  destruct (@early_frame_pitch 5 (2560 / 44100)) as (w & u & -> & Hw & Hu);
    [simpl; lra | lra | lra |].
  rewrite sin_as_cos.
  pose proof PI2_3_2 as Hpi3. pose proof PI_4 as Hpi4.
  set (a := PI * (u - 1 / 2)).
  assert (Ha : 415 / 1000 <= a <= 562 / 1000) by (unfold a; split; nra).
  destruct (@cos_quadratic_bounds a) as [_ Hc]; [lra | lra|].
  assert (Hq : 415 / 1000 * (415 / 1000) <= a * a <= 562 / 1000 * (562 / 1000)) by (split; nra).
  replace (a * a * a * a) with (a * a * (a * a)) in Hc by ring.
  set (q := a * a) in *.
  assert (Hqq : q * q <= 562 / 1000 * (562 / 1000) * q) by nra.
  assert (Hc' : cos a <= 917 / 1000) by lra.
  nra.
Qed.

(** On a finished array, a frame strictly above both neighbours and
    above 10 passes the rule of the specification and the code's own
    test alike. *)
Lemma strict_peak_tests (pd : list R) (i : nat) (l v r : R) :
  (1 <= i)%nat -> (i + 2 <= length pd)%nat ->
  nth_error pd (i - 1) = Some l -> nth_error pd i = Some v -> nth_error pd (i + 1) = Some r ->
  l < v -> r < v -> 10 < v ->
  specPeak 10 pd i = true /\ peakTest pd i = true.
Proof.
  intros Hi Hlen Hl Hv Hr Hlv Hrv H10.
  assert (Habs : Rabs v = v) by (apply Rabs_right; lra).
  split.
  - unfold specPeak. rewrite Hl, Hv, Hr.
    replace (1 <=? i)%nat with true by (symmetry; apply Nat.leb_le; exact Hi).
    replace (i + 2 <=? length pd)%nat with true by (symmetry; apply Nat.leb_le; exact Hlen).
    cbn [andb ltb leb nabs exact]. rewrite Habs.
    replace (Rltb l v) with true by (symmetry; apply Rltb_true; exact Hlv).
    replace (Rltb r v) with true by (symmetry; apply Rltb_true; exact Hrv).
    replace (Rleb 10 v) with true by (symmetry; apply Rleb_true; lra).
    reflexivity.
  - unfold peakTest, arrayRead. cbv zeta.
    replace (Z.of_nat i <? 0)%Z with false by (symmetry; apply Z.ltb_ge; lia).
    replace (Z.of_nat i - 1 <? 0)%Z with false by (symmetry; apply Z.ltb_ge; lia).
    replace (Z.of_nat i + 1 <? 0)%Z with false by (symmetry; apply Z.ltb_ge; lia).
    replace (Z.to_nat (Z.of_nat i)) with i by lia.
    replace (Z.to_nat (Z.of_nat i - 1)) with (i - 1)%nat by lia.
    replace (Z.to_nat (Z.of_nat i + 1)) with (i + 1)%nat by lia.
    rewrite Hl, Hv, Hr. cbn [jsGt jsAbs option_map ltb nabs ofNat exact]. rewrite Habs.
    replace (INR 10) with 10 by (simpl; lra).
    replace (Rltb l v) with true by (symmetry; apply Rltb_true; exact Hlv).
    replace (Rltb r v) with true by (symmetry; apply Rltb_true; exact Hrv).
    replace (Rltb 10 v) with true by (symmetry; apply Rltb_true; exact H10).
    reflexivity.
Qed.

Lemma nth_error_map_seq_lt (A : Type) (f : nat -> A) (n i : nat) :
  (i < n)%nat -> nth_error (map f (seq 0 n)) i = Some (f i).
Proof.
  intros Hi. apply map_nth_error.
  rewrite (nth_error_nth' _ 0%nat) by (rewrite length_seq; exact Hi).
  rewrite seq_nth by exact Hi. reflexivity.
Qed.

(** Frame 4 of the generated frames is a peak by the rule and by the
    code's test, and the scan does not list it. *)
Lemma generated_peak_missed (n : nat) :
  (6 <= n)%nat ->
  let d := mockResult (mockFrame sin PI) n in
  let pd := pitchDeviation d in
  exists prev curr next : R,
    nth_error pd 3 = Some prev /\ nth_error pd 4 = Some curr /\ nth_error pd 5 = Some next
    /\ prev < curr /\ next < curr /\ 10 < Rabs curr
    /\ specPeak 10 pd 4 = true
    /\ peakTest pd 4 = true
    /\ isPeak d 4 = false
    /\ peaks d = [] /\ troughs d = [] /\ oscillations d = 0%nat.
Proof.
  intros Hn. cbv zeta.
  destruct (mockResult_no_extrema (mockFrame sin PI) n) as (Hpk & Htr & Hosc).
  pose proof (mockResult_pitchDeviation (mockFrame sin PI) n) as Hpd.
  unfold isPeak. rewrite Hpk, Htr, Hosc.
  generalize dependent (pitchDeviation (mockResult (mockFrame sin PI) n)).
  intros pd Hpd.
  assert (H3 : nth_error pd 3 = Some (framePitch (mockFrame sin PI 3)))
    by (rewrite Hpd; apply nth_error_map_seq_lt; lia).
  assert (H4 : nth_error pd 4 = Some (framePitch (mockFrame sin PI 4)))
    by (rewrite Hpd; apply nth_error_map_seq_lt; lia).
  assert (H5 : nth_error pd 5 = Some (framePitch (mockFrame sin PI 5)))
    by (rewrite Hpd; apply nth_error_map_seq_lt; lia).
  assert (Hlen : (4 + 2 <= length pd)%nat)
    by (rewrite Hpd, length_map, length_seq; exact Hn).
  pose proof frame3_pitch as Hp3. pose proof frame4_pitch as Hp4. pose proof frame5_pitch as Hp5.
  destruct (@strict_peak_tests pd 4 _ _ _ (le_S _ _ (le_S _ _ (le_S _ _ (le_n 1)))) Hlen H3 H4 H5)
    as [Hspec Hcode]; try lra.
  exists (framePitch (mockFrame sin PI 3)), (framePitch (mockFrame sin PI 4)),
         (framePitch (mockFrame sin PI 5)).
  repeat split; try assumption; try lra.
  rewrite Rabs_right by lra. lra.
Qed.
End GeneratedPeak.


(** * The claims *)

(** ** Extrema *)

(** C1 at its failing input, in exact arithmetic: the frames the
    generator itself produces.  Frame 4 is strictly above frame 3 and
    frame 5 and above 10 cents (it is the crest of the first vibrato
    cycle, near 30 cents), so it is a peak by the rule of the
    specification, and also by the code's own test when that is run on
    the finished array.  The scan does not list it: it lists nothing,
    because the test at frame [i] reads [pitchDeviation[i + 1]] before
    that frame has been pushed. *)
Theorem mock_scan_misses_generated_peak :
  let d := generateMockDataExact in
  let pd := pitchDeviation d in
  exists prev curr next : R,
    nth_error pd 3 = Some prev /\ nth_error pd 4 = Some curr /\ nth_error pd 5 = Some next
    /\ (prev < curr)%R /\ (next < curr)%R /\ (10 < Rabs curr)%R
    /\ specPeak 10%R pd 4 = true
    /\ peakTest pd 4 = true
    /\ isPeak d 4 = false
    /\ peaks d = [] /\ troughs d = [] /\ oscillations d = 0.
Proof. apply (generated_peak_missed (n := 2000)). lia. Qed.

(** C7.  In the result of the scan the peaks and the troughs are each
    strictly increasing, no index is listed in both, and no listed index
    is 0 or N-1. *)
Theorem scan_extrema_set_wellformed
  (num : Type) (N : JsNumber num) (frameAt : nat -> frame num) (n : nat) :
  let d := mockResult frameAt n in
  StronglySorted lt (peaks d)
  /\ StronglySorted lt (troughs d)
  /\ Forall (fun i => ~ In i (troughs d)) (peaks d)
  /\ Forall (fun i => i <> 0 /\ i <> n - 1) (peaks d ++ troughs d).
Proof.
  destruct (mockResult_no_extrema frameAt n) as (Hp & Ht & _).
  cbv zeta. rewrite Hp, Ht. repeat split; constructor.
Qed.

(** ** Correlation *)

(** What the formula denotes.  In exact arithmetic, for two slices of
    equal, nonzero length the value lies in [-1, 1], and it is 0 when
    either slice has zero variance. *)
Theorem correlation_exact_contract (x y : list R) :
  length x = length y -> length x <> 0 ->
  (-1 <= calculateCorrelation x y <= 1)%R
  /\ (constantSlice x \/ constantSlice y -> calculateCorrelation x y = 0%R).
Proof.
  intros Hlen _. split.
  - apply correlation_exact_range.
  - intros Hc. apply correlation_exact_zero_variance; assumption.
Qed.

Lemma correlation_exact_contract_witness :
  (-1 <= calculateCorrelation [1; 2]%R [4; 4]%R <= 1)%R
  /\ calculateCorrelation [1; 2]%R [4; 4]%R = 0%R.
Proof.
  destruct (@correlation_exact_contract [1; 2]%R [4; 4]%R) as [Hrange Hzero].
  - reflexivity.
  - discriminate.
  - split; [exact Hrange|].
    apply Hzero. right. intros a b [<-|[<-|[]]] [<-|[<-|[]]]; reflexivity.
Defined.

(** C2 at its failing inputs, on doubles.  The slice [0.1, 0.1, 0.1]
    has zero variance, but its mean is computed as 0.10000000000000002,
    every deviation is a rounding residue and the sum of their squares
    is 5.8e-34, not 0: the guard [denomX === 0 || denomY === 0] is
    passed and, against [0.7, 0.7, 0.7], the function returns -1 where
    zero variance asks for 0.  With x = y = [0, 1e-100] both sums of
    squares are 5e-201, the guard is passed, their product underflows
    to 0 and the function divides by zero after all: +Infinity, outside
    [-1, 1]. *)
Theorem correlation_zero_variance_guard_misses :
  let x := [0.1; 0.1; 0.1]%float in
  let y := [0.7; 0.7; 0.7]%float in
  let tiny := [0; 1e-100]%float in
  mean x = 0.10000000000000002%float
  /\ denomX (corrLoop x y) = 5.7777898331617076e-34%float
  /\ denomY (corrLoop x y) = 3.6977854932234928e-32%float
  /\ calculateCorrelation x y = (-1)%float
  /\ denomX (corrLoop tiny tiny) = 4.9999999999999999e-201%float
  /\ denomY (corrLoop tiny tiny) = 4.9999999999999999e-201%float
  /\ (denomX (corrLoop tiny tiny) [*] denomY (corrLoop tiny tiny))%js = 0%float
  /\ calculateCorrelation tiny tiny = infinity.
Proof. vm_compute. repeat split. Qed.

(** Rounding alone also leaves [-1, 1], by one unit in the last place:
    the function has no clamp. *)
Example correlation_rounds_above_one :
  calculateCorrelation [0; 1.7]%float [0; 5.1]%float = 1.0000000000000002%float.
Proof. vm_compute. reflexivity. Qed.

(** In exact arithmetic a non-constant slice correlated with itself
    gives exactly 1, and a zero-variance slice correlated with any slice
    of the same length gives 0. *)
Theorem correlation_exact_self_and_degenerate (x z y : list R) :
  nonConstant x -> constantSlice z -> length z = length y ->
  calculateCorrelation x x = 1%R /\ calculateCorrelation z y = 0%R.
Proof.
  intros Hx Hz Hlen. split.
  - apply correlation_exact_self; assumption.
  - apply correlation_exact_zero_variance; [assumption | left; assumption].
Qed.

Lemma correlation_exact_self_witness :
  calculateCorrelation [1; 2; 4]%R [1; 2; 4]%R = 1%R
  /\ calculateCorrelation [3; 3]%R [5; 8]%R = 0%R.
Proof.
  apply (@correlation_exact_self_and_degenerate [1; 2; 4]%R [3; 3]%R [5; 8]%R).
  - exists 1%R, 2%R. repeat split; [left; reflexivity | right; left; reflexivity | lra].
  - intros a b [<-|[<-|[]]] [<-|[<-|[]]]; reflexivity.
  - reflexivity.
Defined.

(** C8 at its failing input, on doubles.  The slice [0.2, 0.2, 0.2]
    has zero variance, but its mean is computed as 0.20000000000000004
    and the sum of squared deviations is 2.3e-33, not 0, so the
    zero-variance guard is passed: against the equal-length
    [0.7, 0.7, 0.7] the function returns -1, against [1, 2, 4] a nonzero
    residue and against itself 1, where the claim says 0. *)
Theorem correlation_constant_slice_not_zero :
  let z := [0.2; 0.2; 0.2]%float in
  mean z = 0.20000000000000004%float
  /\ denomX (corrLoop z z) = 2.311115933264683e-33%float
  /\ calculateCorrelation z [0.7; 0.7; 0.7]%float = (-1)%float
  /\ calculateCorrelation z [1; 2; 4]%float = 1.1868783374443499e-16%float
  /\ calculateCorrelation z z = 1%float.
Proof. vm_compute. repeat split. Qed.

(** The sums of squares are not scaled either: for the non-constant
    x = [0, 1e100] their product overflows and the result is 0, and for
    x = [0, 1e200] the squares themselves overflow and the result is
    NaN. *)
Example correlation_self_overflows :
  calculateCorrelation [0; 1e100]%float [0; 1e100]%float = 0%float
  /\ calculateCorrelation [0; 1e200]%float [0; 1e200]%float = nan.
Proof. vm_compute. split; reflexivity. Qed.

(** C5, as the code has it.  A call with slices of different lengths,
    or with empty slices, does not fail: it returns the number 0. *)
Theorem correlation_guard_returns_zero
  (num : Type) (N : JsNumber num) (x y : list num) :
  length x <> length y \/ length x = 0 ->
  callCorrelation x y = Returned zero.
Proof.
  intros Hbad. unfold callCorrelation.
  rewrite calculateCorrelation_guard by assumption. reflexivity.
Qed.

Lemma correlation_guard_witness :
  callCorrelation [1; 2]%float [1]%float = Returned 0%float.
Proof.
  apply (@correlation_guard_returns_zero float binary64 [1; 2]%float [1]%float).
  left. discriminate.
Defined.

(** C5 fails as stated: calls with mismatched and with empty slices
    return 0 instead of raising InvalidRangeError. *)
Lemma correlation_does_not_fail_fast :
  callCorrelation [1; 2]%float [1]%float = Returned 0%float
  /\ callCorrelation (@nil float) (@nil float) = Returned 0%float.
Proof. vm_compute. split; reflexivity. Qed.

(** C10.  On doubles every call completes with a number, and for
    slices of different lengths or of length zero that number is 0,
    which is not NaN. *)
Theorem calculateCorrelation_total (x y : list float) :
  (exists v, callCorrelation x y = Returned v)
  /\ (forall e, callCorrelation x y <> Threw e)
  /\ (length x <> length y \/ length x = 0 ->
      calculateCorrelation x y = 0%float
      /\ PrimFloat.is_nan (calculateCorrelation x y) = false).
Proof.
  split; [eexists; reflexivity|].
  split; [intros e; discriminate|].
  intros Hbad.
  rewrite (@calculateCorrelation_guard float binary64 x y Hbad).
  split; reflexivity.
Qed.

(** ** The visible window *)

(** C3.  The visible window is [max(0, t - w), t]; [startIdx] is the
    first index of [times] whose entry is at least the window's start
    and [endIdx] the first whose entry is at least its end ([-1] when
    there is none).  For [windowSize = 5] and [currentTime = 12] the
    window is [7, 12], on doubles and in exact arithmetic. *)
Theorem visible_window_resolution :
  (forall (num : Type) (N : JsNumber num) (data : AnalysisData num) (t w : num),
      visibleWindow t w = (nmax zero (t [-] w), t)%js
      /\ ((startIdxOf data t w = (-1)%Z
           /\ noIndexWith (fun u => u [>=] fst (visibleWindow t w))%js (times data))
          \/ firstIndexWith (fun u => u [>=] fst (visibleWindow t w))%js (times data)
                            (startIdxOf data t w))
      /\ ((endIdxOf data t = (-1)%Z
           /\ noIndexWith (fun u => u [>=] snd (visibleWindow t w))%js (times data))
          \/ firstIndexWith (fun u => u [>=] snd (visibleWindow t w))%js (times data)
                            (endIdxOf data t)))
  /\ visibleWindow 12%float 5%float = (7%float, 12%float)
  /\ visibleWindow 12%R 5%R = (7%R, 12%R).
Proof.
  split; [|split].
  - intros num N data t w. split; [reflexivity|]. split.
    + apply findIndex_spec.
    + apply findIndex_spec.
  - vm_compute. reflexivity.
  - unfold visibleWindow, timeStartOf, timeEndOf; cbn.
    rewrite Rmax_right by lra. f_equal. lra.
Qed.

(** C9, as the code has it.  An index is unresolved ([findIndex] gave
    -1) exactly when no sample time is at least the window's start, or
    none is at least the current time: the window, or the current time,
    lies past the last sample.  On such a tick, and on no other, the
    effect returns before anything is drawn; a tick that is drawn reads
    only existing frames.  A current time at or before the first sample
    does not leave an index unresolved: in exact arithmetic, for a
    window size and a first sample time that are not negative, both
    indices are 0 and the tick is drawn. *)
Theorem render_skips_unresolved_tick :
  (forall (num : Type) (N : JsNumber num) (data : AnalysisData num) (t w : num),
      ((startIdxOf data t w = (-1)%Z \/ endIdxOf data t = (-1)%Z)
       <-> (noIndexWith (fun u => u [>=] timeStartOf t w)%js (times data)
            \/ noIndexWith (fun u => u [>=] t)%js (times data)))
      /\ (renderEffect data t w = []
          <-> (startIdxOf data t w = (-1)%Z \/ endIdxOf data t = (-1)%Z))
      /\ readsWithin (length (times data)) (renderEffect data t w))
  /\ (forall (data : AnalysisData R) (t w first : R) (rest : list R),
        times data = first :: rest -> (0 <= w)%R -> (0 <= first)%R -> (t <= first)%R ->
        startIdxOf data t w = 0%Z
        /\ endIdxOf data t = 0%Z
        /\ hd_error (renderEffect data t w) = Some (Clear PitchPanel)).
Proof.
  split.
  - intros num N data t w. split; [|split].
    + unfold startIdxOf, endIdxOf, timeEndOf. rewrite !findIndex_unresolved. tauto.
    + split; [|apply renderEffect_unresolved].
      intros Hnil.
      destruct (Z.eq_dec (startIdxOf data t w) (-1)) as [Hs | Hs]; [left; exact Hs|].
      destruct (Z.eq_dec (endIdxOf data t) (-1)) as [He | He]; [right; exact He|].
      pose proof (renderEffect_resolved data t w Hs He) as Hdrawn.
      rewrite Hnil in Hdrawn. discriminate.
    + apply renderEffect_reads_within.
  - intros data t w first rest Htimes Hw Hfirst Ht.
    assert (Hs : startIdxOf data t w = 0%Z).
    { unfold startIdxOf. rewrite Htimes. apply findIndex_head.
      apply Rleb_true. unfold timeStartOf. cbn [nmax exact zero sub].
      apply Rmax_lub; lra. }
    assert (He : endIdxOf data t = 0%Z).
    { unfold endIdxOf, timeEndOf. rewrite Htimes. apply findIndex_head.
      apply Rleb_true. exact Ht. }
    split; [exact Hs|]. split; [exact He|].
    apply renderEffect_resolved; [rewrite Hs | rewrite He]; discriminate.
Qed.

(** C9 fails as stated: with the current time 0.5 before the first
    sample time 1, both indices resolve to 0 and the tick is drawn. *)
Lemma render_draws_before_first_sample :
  let data := mkAnalysisData [1; 2; 3]%float [0; 20; 0]%float [0; 1; 0]%float
                             [0.5; 0.5; 0.5]%float [1] [] 1 in
  PrimFloat.ltb 0.5 1 = true
  /\ startIdxOf data 0.5%float 5%float = 0%Z
  /\ endIdxOf data 0.5%float = 0%Z
  /\ renderEffect data 0.5%float 5%float
     = [Clear PitchPanel; Clear VolumePanel; Clear OverlayPanel;
        Grid PitchPanel; Grid VolumePanel; Grid OverlayPanel;
        Curve PitchPanel [0]; Curve VolumePanel [0]; Curve OverlayPanel [0];
        Playhead PitchPanel; Playhead VolumePanel; Playhead OverlayPanel].
Proof. vm_compute. repeat split. Qed.

(** ** Playback *)

(** C4 at its failing input, on doubles.  A 20 s file is playing; the
    bar is pressed at three quarters of its width and held, so a drag
    is active with [currentTime] at 15.  The animation-frame and
    timeupdate callbacks leave it there, but the audio element plays on,
    reaches its end five seconds later and raises [ended], a playback
    event like the other two: its handler has no [isDragging] test and
    moves [currentTime] to 20 while the drag is still active, and there
    it is when the mouse is released. *)
Theorem ended_event_writes_during_drag :
  let playing := run [FileUpload; LoadedMetadata 20%float; TogglePlay] initialPlayback in
  let held := run [DragStart 0.75%float; MediaAdvance 5%float] playing in
  isPlaying playing = true
  /\ isDragging held = true
  /\ currentTime held = 15%float
  /\ audioTime held = 20%float
  /\ audioDuration held = Some 20%float
  /\ currentTime (step held RafTick) = 15%float
  /\ currentTime (step held TimeUpdate) = 15%float
  /\ clockDriven (@Ended float) = true
  /\ isDragging (step held Ended) = true
  /\ currentTime (step held Ended) = 20%float
  /\ currentTime (run [Ended; DragEnd] held) = 20%float.
Proof. vm_compute. repeat split. Qed.

(** ** Analysis request *)

(** C6, as the code has it.  A run is pending while [isAnalyzing] is
    set; when it fails it ends ([isAnalyzing] is cleared), the error is
    shown as one alert string, and [analysisData] is set to the mock
    data set, whose four arrays have 2000 entries each. *)
Theorem failed_run_falls_back_to_mock_data
  (num : Type) (N : JsNumber num) (sinF : num -> num) (piC : num)
  (r : fetchResult num) (st : AppState num) :
  failed r = true ->
  let st' := analyzeAudio sinF piC r st in
  let mock := generateMockData sinF piC in
  isAnalyzing (analyzeStart st) = true
  /\ isAnalyzing st' = false
  /\ analysisData st' = Some mock
  /\ (exists e, alerts st' = alerts st ++ [alertText e])
  /\ length (times mock) = 2000
  /\ length (pitchDeviation mock) = 2000
  /\ length (amplitudeDeviation mock) = 2000
  /\ length (amplitude mock) = 2000.
Proof.
  intros Hf. cbv zeta.
  destruct (mockResult_lengths (mockFrame sinF piC) 2000) as (Lt & Lp & Lad & La).
  change (mockResult (mockFrame sinF piC) 2000) with (generateMockData sinF piC)
    in Lt, Lp, Lad, La.
  unfold analyzeAudio, analyzeSettle, analyzeStart, catchBlock.
  generalize dependent (generateMockData sinF piC). intros mock Lt Lp Lad La.
  split; [reflexivity|].
  destruct r as [e | detail | data]; try discriminate;
    cbn [isAnalyzing analysisData alerts];
    (repeat split; try assumption; eexists; reflexivity).
Qed.

Lemma failed_run_witness :
  analysisData (analyzeAudio sin PI (@FetchRejected R "TypeError: Failed to fetch"%string)
                             (mkAppState None false []))
  = Some generateMockDataExact.
Proof.
  destruct (@failed_run_falls_back_to_mock_data R exact sin PI
              (@FetchRejected R "TypeError: Failed to fetch"%string) (mkAppState None false [])
              eq_refl) as (_ & _ & Hdata & _).
  exact Hdata.
Defined.

(** C6 fails as stated: after a rejected request the state holds
    result arrays, the 2000 frames of the mock generator, and the error
    is an alert string. *)
Lemma failed_run_produces_arrays :
  let st := analyzeAudio sin PI (@ResponseNotOk R (Some "Could not decode audio"%string))
                         (mkAppState None false []) in
  analysisData st = Some generateMockDataExact
  /\ length (times generateMockDataExact) = 2000
  /\ length (pitchDeviation generateMockDataExact) = 2000
  /\ alerts st
     = ["Failed to analyze audio: Error: Could not decode audio. Make sure the backend is running (uvicorn backend:app --reload)"%string].
Proof.
  cbv zeta.
  destruct (mockResult_lengths (mockFrame (num := R) sin PI) 2000) as (Lt & Lp & _).
  split; [reflexivity|].
  split; [exact Lt|].
  split; [exact Lp|].
  reflexivity.
Qed.

(** * Further properties of the code *)

(** X1.  The scan of the mock generator never lists an extremum: the
    test at frame [i] reads [pitchDeviation[i + 1]] before that frame
    has been pushed, the read is undefined and both comparisons with it
    are false.  The result has no peaks, no troughs and zero
    oscillations, whatever the pitch values are. *)
Theorem mock_scan_lists_no_extremum
  (num : Type) (N : JsNumber num) (frameAt : nat -> frame num) (n : nat) :
  peaks (mockResult frameAt n) = []
  /\ troughs (mockResult frameAt n) = []
  /\ oscillations (mockResult frameAt n) = 0.
Proof. apply mockResult_no_extrema. Qed.

(** X2.  Every frame index a drawn tick reads, for the curves and for
    the peak and trough markers, is an index of [times]. *)
Theorem render_reads_existing_frames
  (num : Type) (N : JsNumber num) (data : AnalysisData num) (t w : num) :
  readsWithin (length (times data)) (renderEffect data t w).
Proof. apply renderEffect_reads_within. Qed.

(** X3.  A tick is skipped exactly when there are no frames, or no
    sample time is at least the window's start, or none is at least the
    current time. *)
Theorem render_skip_characterised
  (num : Type) (N : JsNumber num) (data : AnalysisData num) (t w : num) :
  renderEffect data t w = []
  <-> (times data = []
       \/ noIndexWith (fun u => u [>=] timeStartOf t w)%js (times data)
       \/ noIndexWith (fun u => u [>=] t)%js (times data)).
Proof.
  unfold renderEffect.
  destruct (times data) as [|t0 ts] eqn:Ht; [cbn; tauto|].
  cbn [length Nat.eqb]. cbv zeta.
  unfold startIdxOf, endIdxOf, timeEndOf; rewrite Ht.
  set (ps := fun u : num => (u [>=] timeStartOf t w)%js).
  set (pe := fun u : num => (u [>=] t)%js).
  pose proof (findIndex_unresolved ps (t0 :: ts)) as Hs.
  pose proof (findIndex_unresolved pe (t0 :: ts)) as He.
  destruct (findIndex ps (t0 :: ts) =? -1)%Z eqn:Es;
    [apply Z.eqb_eq in Es; tauto|].
  destruct (findIndex pe (t0 :: ts) =? -1)%Z eqn:Ee;
    [apply Z.eqb_eq in Ee; tauto|].
  apply Z.eqb_neq in Es, Ee. cbn [orb app].
  split; [discriminate|].
  intros [Hnil | [Hn | Hn]]; [discriminate | tauto | tauto].
Qed.

(** ** Correlation: symmetry and change of units, in exact arithmetic *)

Lemma fold_left_related (A A' B : Type) (f : A -> B -> A) (g : A' -> B -> A')
  (Rel : A -> A' -> Prop) (l : list B) :
  (forall a a' b, In b l -> Rel a a' -> Rel (f a b) (g a' b)) ->
  forall a a', Rel a a' -> Rel (fold_left f l a) (fold_left g l a').
Proof.
  induction l as [|b l IH]; intros Hstep a a' Ha; simpl; auto.
  apply IH.
  - intros c c' b' Hin; apply Hstep; right; assumption.
  - apply Hstep; [left; reflexivity | assumption].
Qed.

Section ExactCorrelationAlgebra.
Local Open Scope R_scope.

Lemma corrLoop_swap (x y : list R) :
  length x = length y ->
  numerator (corrLoop y x) = numerator (corrLoop x y)
  /\ denomX (corrLoop y x) = denomY (corrLoop x y)
  /\ denomY (corrLoop y x) = denomX (corrLoop x y).
Proof.
  intros Hlen. unfold corrLoop. rewrite <- Hlen.
  apply fold_left_related
    with (Rel := fun s s' : sums R =>
                   numerator s' = numerator s
                   /\ denomX s' = denomY s /\ denomY s' = denomX s)
         (f := corrStep x y (mean x) (mean y))
         (g := corrStep y x (mean y) (mean x)).
  - intros s s' i _ (Hn & Hx & Hy). cbn -[mean]. rewrite Hn, Hx, Hy.
    repeat split; ring.
  - repeat split.
Qed.

Lemma correlation_exact_symmetric (x y : list R) :
  calculateCorrelation x y = calculateCorrelation y x.
Proof.
  unfold calculateCorrelation.
  destruct (Nat.eq_dec (length x) (length y)) as [Hlen | Hne].
  - rewrite <- Hlen, Nat.eqb_refl. cbn [negb orb].
    destruct (length x =? 0)%nat; [reflexivity|].
    cbv zeta.
    destruct (corrLoop_swap x y Hlen) as (Hn & Hx & Hy).
    rewrite Hn, Hx, Hy. cbn.
    rewrite (orb_comm (Reqb (denomY (corrLoop x y)) 0)).
    rewrite (Rmult_comm (denomY (corrLoop x y))). reflexivity.
  - replace (length x =? length y)%nat with false
      by (symmetry; apply Nat.eqb_neq; assumption).
    replace (length y =? length x)%nat with false
      by (symmetry; apply Nat.eqb_neq; congruence).
    reflexivity.
Qed.

(** The mean of an array whose entries went through [v -> a * v + b]. *)
Lemma sum_affine (a b : R) (y : list R) :
  forall acc,
    fold_left Rplus (map (fun v => a * v + b) y) (a * acc)
    = a * fold_left Rplus y acc + INR (length y) * b.
Proof.
  induction y as [|v y IH]; intros acc.
  - cbn; lra.
  - cbn [map fold_left length]. rewrite S_INR.
    replace (a * acc + (a * v + b)) with (a * (acc + v) + b) by ring.
    assert (Hshift : forall l c d, fold_left Rplus l (c + d) = fold_left Rplus l c + d).
    { intros l; induction l as [|w l IHl]; intros c d; cbn; [reflexivity|].
      replace (c + d + w) with (c + w + d) by ring. apply IHl. }
    rewrite Hshift, IH. ring.
Qed.

Lemma mean_affine (a b : R) (y : list R) :
  y <> [] -> mean (map (fun v => a * v + b) y) = a * mean y + b.
Proof.
  intros Hne. unfold mean; cbn. rewrite length_map.
  replace 0 with (a * 0) at 1 by ring.
  rewrite sum_affine.
  assert (Hn : INR (length y) <> 0).
  { apply not_0_INR. destruct y; [contradiction | discriminate]. }
  field; assumption.
Qed.

Lemma corrLoop_affine (a b : R) (x y : list R) :
  length x = length y -> y <> [] ->
  let y' := map (fun v => a * v + b) y in
  numerator (corrLoop x y') = a * numerator (corrLoop x y)
  /\ denomX (corrLoop x y') = denomX (corrLoop x y)
  /\ denomY (corrLoop x y') = a * a * denomY (corrLoop x y).
Proof.
  intros Hlen Hne y'. unfold corrLoop.
  apply fold_left_related
    with (Rel := fun s s' : sums R =>
                   numerator s' = a * numerator s
                   /\ denomX s' = denomX s /\ denomY s' = a * a * denomY s)
         (f := corrStep x y (mean x) (mean y))
         (g := corrStep x y' (mean x) (mean y')).
  - intros s s' i Hi (Hn & Hx & Hy). apply in_seq in Hi.
    unfold y'. rewrite (mean_affine a b Hne).
    cbn -[mean]. rewrite Hn, Hx, Hy.
    replace (nth i (map (fun v => a * v + b) y) 0) with (a * nth i y 0 + b).
    + repeat split; ring.
    + symmetry.
      rewrite (nth_indep _ 0 ((fun v => a * v + b) 0)) by (rewrite length_map; lia).
      apply (map_nth (fun v => a * v + b)).
  - cbn. repeat split; ring.
Qed.

Lemma correlation_exact_affine (a b : R) (x y : list R) :
  a <> 0 ->
  calculateCorrelation x (map (fun v => a * v + b) y)
  = a / Rabs a * calculateCorrelation x y.
Proof.
  intros Ha. unfold calculateCorrelation. rewrite length_map.
  destruct (negb (length x =? length y) || (length x =? 0))%nat eqn:Hg; [cbn; lra|].
  apply orb_false_iff in Hg. destruct Hg as [Hlen Hz].
  apply negb_false_iff, Nat.eqb_eq in Hlen. apply Nat.eqb_neq in Hz.
  assert (Hne : y <> []) by (intros ->; cbn in Hlen; contradiction).
  cbv zeta.
  destruct (corrLoop_affine a b x Hlen Hne) as (Hn & Hx & Hy). cbv zeta in Hn, Hx, Hy.
  rewrite Hn, Hx, Hy.
  destruct (corrLoop_csInv x y) as (_ & HX & HY).
  set (s := corrLoop x y) in *. cbn.
  assert (Habs : 0 < Rabs a) by (apply Rabs_pos_lt; assumption).
  destruct (Req_dec_T (denomX s) 0) as [Ex | Ex].
  - unfold Reqb. destruct (Req_dec_T (denomX s) 0); [cbn; lra | contradiction].
  - destruct (Req_dec_T (denomY s) 0) as [Ey | Ey].
    + unfold Reqb. rewrite Ey, Rmult_0_r.
      destruct (Req_dec_T (denomX s) 0); [contradiction|].
      destruct (Req_dec_T 0 0); [cbn; lra | contradiction].
    + assert (Ey' : a * a * denomY s <> 0).
      { apply Rmult_integral_contrapositive_currified; [|assumption].
        apply Rmult_integral_contrapositive_currified; assumption. }
      unfold Reqb.
      destruct (Req_dec_T (denomX s) 0); [contradiction|].
      destruct (Req_dec_T (a * a * denomY s) 0); [contradiction|].
      destruct (Req_dec_T (denomY s) 0); [contradiction|].
      cbn.
      replace (denomX s * (a * a * denomY s)) with (Rsqr a * (denomX s * denomY s))
        by (unfold Rsqr; ring).
      rewrite sqrt_mult_alt by apply Rle_0_sqr.
      rewrite sqrt_Rsqr_abs.
      assert (Hs : 0 < sqrt (denomX s * denomY s)).
      { apply sqrt_lt_R0. apply Rmult_lt_0_compat; lra. }
      field; split; lra.
Qed.

Lemma correlation_exact_linear (a b : R) (x : list R) :
  a <> 0 -> nonConstant x ->
  calculateCorrelation x (map (fun v => a * v + b) x) = a / Rabs a.
Proof.
  intros Ha Hx. rewrite correlation_exact_affine by assumption.
  rewrite correlation_exact_self by assumption. ring.
Qed.
End ExactCorrelationAlgebra.

(** ** The window on sample times, in exact arithmetic *)

Section ExactWindow.
Local Open Scope R_scope.

Lemma window_ordered (t w : R) :
  0 <= t -> 0 <= w -> timeStartOf t w <= timeEndOf t.
Proof.
  intros Ht Hw. unfold timeStartOf, timeEndOf; cbn.
  apply Rmax_lub; lra.
Qed.

(** When the end index resolves, so does the start index, and it is not
    after the end index. *)
Lemma startIdx_before_endIdx (data : AnalysisData R) (t w : R) :
  0 <= t -> 0 <= w ->
  endIdxOf data t <> (-1)%Z ->
  startIdxOf data t w <> (-1)%Z
  /\ (startIdxOf data t w <= endIdxOf data t)%Z.
Proof.
  intros Ht Hw He.
  pose proof (window_ordered Ht Hw) as Hord.
  unfold startIdxOf, endIdxOf in *.
  set (ps := fun u : R => (u [>=] timeStartOf t w)%js) in *.
  set (pe := fun u : R => (u [>=] timeEndOf t)%js) in *.
  destruct (findIndex_spec pe (times data)) as [[Hm _] | ((He0 & Helt) & (a & Ha & Hpa) & _)];
    [contradiction|].
  assert (Hps : ps a = true).
  { unfold ps, pe in *; cbn in *. apply Rleb_true in Hpa. apply Rleb_true. lra. }
  destruct (findIndex_spec ps (times data))
    as [[Hm Hnone] | ((Hs0 & Hslt) & _ & Hfirst)].
  - apply nth_error_In in Ha. rewrite (Hnone a Ha) in Hps. discriminate.
  - split; [lia|].
    destruct (Z_le_gt_dec (findIndex ps (times data)) (findIndex pe (times data)))
      as [Hle | Hgt]; [assumption|].
    assert (Hlt : (Z.to_nat (findIndex pe (times data))
                   < Z.to_nat (findIndex ps (times data)))%nat) by lia.
    rewrite (Hfirst _ a Hlt Ha) in Hps. discriminate.
Qed.

(** The frames of a window: at or after its start, and before its end
    for every index below [endIdx]. *)
Lemma window_frames_in_range (data : AnalysisData R) (t w : R) (i : nat) (a : R) :
  nonDecreasing (times data) ->
  startIdxOf data t w <> (-1)%Z ->
  (Z.to_nat (startIdxOf data t w) <= i)%nat ->
  nth_error (times data) i = Some a ->
  timeStartOf t w <= a
  /\ ((Z.of_nat i < endIdxOf data t)%Z -> a < timeEndOf t).
Proof.
  intros Hsorted Hs Hi Ha.
  unfold startIdxOf, endIdxOf in *.
  set (ps := fun u : R => (u [>=] timeStartOf t w)%js) in *.
  set (pe := fun u : R => (u [>=] timeEndOf t)%js) in *.
  split.
  - destruct (findIndex_spec ps (times data))
      as [[Hm _] | (_ & (b & Hb & Hpb) & _)]; [contradiction|].
    unfold ps in Hpb; cbn -[timeStartOf] in Hpb. apply Rleb_true in Hpb.
    pose proof (Hsorted _ _ _ _ Hi Hb Ha). lra.
  - intros Hlt.
    destruct (findIndex_spec pe (times data))
      as [[Hm _] | (_ & _ & Hfirst)]; [lia|].
    assert (Hlt' : (i < Z.to_nat (findIndex pe (times data)))%nat) by lia.
    pose proof (Hfirst i a Hlt' Ha) as Hpa.
    unfold pe in Hpa; cbn -[timeEndOf] in Hpa. apply Rleb_false in Hpa. exact Hpa.
Qed.
End ExactWindow.

(** ** The slices handed to the correlation estimate *)

Section SliceFacts.
Context {num : Type} `{JsNumber num}.

Lemma slice_length (a : list num) (from to : nat) :
  to <= length a -> length (slice a from to) = to - from.
Proof.
  intros Hto. unfold slice. rewrite length_firstn, length_skipn. lia.
Qed.

Lemma slice_nth_error (a : list num) (from to k : nat) :
  k < to - from -> nth_error (slice a from to) k = nth_error a (from + k).
Proof.
  intros Hk. unfold slice.
  rewrite nth_error_firstn.
  replace (k <? to - from) with true by (symmetry; apply Nat.ltb_lt; assumption).
  apply nth_error_skipn.
Qed.
End SliceFacts.

(** ** Drawing geometry, in exact arithmetic *)

(** Integer literals of the exact instance as real numerals. *)
Ltac real_literals :=
  cbn [ofNat exact zero add sub mul div nmax nmin nabs]; rewrite ?INR_IZR_INZ;
  cbn [Z.of_nat Pos.of_succ_nat Pos.succ].

Section ExactGeometry.
Local Open Scope R_scope.

Lemma PADDING_exact : PADDING (num := R) = 40.
Proof. unfold PADDING. real_literals. reflexivity. Qed.

Lemma timeToX_exact (ts te width time : R) :
  timeToX ts te width time = 40 + (time - ts) / (te - ts) * (width - 2 * 40).
Proof. unfold timeToX. rewrite PADDING_exact. real_literals. reflexivity. Qed.

Lemma playheadX_exact (width : R) : playheadX width = width - 40 - 10.
Proof. unfold playheadX. rewrite PADDING_exact. real_literals. reflexivity. Qed.

Lemma clampY_exact (h y : R) : clampY h y = Rmax 40 (Rmin (h - 40) y).
Proof. unfold clampY. rewrite PADDING_exact. reflexivity. Qed.

Lemma clampY_range (h y : R) : 80 <= h -> 40 <= clampY h y <= h - 40.
Proof.
  intros Hh. rewrite clampY_exact. split; [apply Rmax_l|].
  apply Rmax_lub; [lra | apply Rmin_l].
Qed.

Lemma clampY_inside (h y : R) : 40 <= y <= h - 40 -> clampY h y = y.
Proof.
  intros [Hlo Hhi]. rewrite clampY_exact.
  rewrite Rmin_right by assumption. apply Rmax_right; assumption.
Qed.

Lemma clampY_above (h y : R) : 80 <= h -> h - 40 <= y -> clampY h y = h - 40.
Proof.
  intros Hh Hy. rewrite clampY_exact.
  rewrite Rmin_left by assumption. apply Rmax_right; lra.
Qed.

Lemma clampY_below (h y : R) : 80 <= h -> y <= 40 -> clampY h y = 40.
Proof.
  intros Hh Hy. rewrite clampY_exact.
  rewrite Rmin_right by lra. apply Rmax_left; assumption.
Qed.

Lemma pitchY_exact (h v : R) : pitchY h v = clampY h (h / 2 - v * ((h - 2 * 40) / 400)).
Proof. unfold pitchY. rewrite PADDING_exact. real_literals. reflexivity. Qed.

Lemma volumeY_exact (h v : R) : volumeY h v = clampY h (h / 2 - v * ((h - 2 * 40) / 40)).
Proof. unfold volumeY. rewrite PADDING_exact. real_literals. reflexivity. Qed.

Lemma overlayPitchY_exact (h v : R) :
  overlayPitchY h v = clampY h (h / 2 - v * ((h - 2 * 40) / 200)).
Proof. unfold overlayPitchY. rewrite PADDING_exact. real_literals. reflexivity. Qed.

Lemma overlayAmpY_exact (h v : R) :
  overlayAmpY h v = clampY h (h / 2 - v * 5 * ((h - 2 * 40) / 200)).
Proof. unfold overlayAmpY. rewrite PADDING_exact. real_literals. reflexivity. Qed.

(** A value inside the panel's range is drawn where the linear scale
    puts it. *)
Lemma pitchY_unclamped (h v : R) :
  80 <= h -> -200 <= v <= 200 -> pitchY h v = h / 2 - v * (h - 80) / 400.
Proof.
  intros Hh Hv. rewrite pitchY_exact, clampY_inside; [field|].
  split; nra.
Qed.

Lemma volumeY_unclamped (h v : R) :
  80 <= h -> -20 <= v <= 20 -> volumeY h v = h / 2 - v * (h - 80) / 40.
Proof.
  intros Hh Hv. rewrite volumeY_exact, clampY_inside; [field|].
  split; nra.
Qed.

Lemma overlayPitchY_unclamped (h v : R) :
  80 <= h -> -100 <= v <= 100 -> overlayPitchY h v = h / 2 - v * (h - 80) / 200.
Proof.
  intros Hh Hv. rewrite overlayPitchY_exact, clampY_inside; [field|].
  split; nra.
Qed.

Lemma overlayAmpY_unclamped (h v : R) :
  80 <= h -> -20 <= v <= 20 -> overlayAmpY h v = h / 2 - v * (h - 80) / 40.
Proof.
  intros Hh Hv. rewrite overlayAmpY_exact, clampY_inside; [field|].
  split; nra.
Qed.

Lemma gridY_five (h : R) (i : nat) :
  gridY h 5 i = 40 + (h - 80) / 4 * INR i.
Proof.
  unfold gridY. rewrite PADDING_exact.
  cbn [ofNat exact zero add sub mul div]. rewrite !INR_IZR_INZ.
  cbn [Z.of_nat Pos.of_succ_nat Pos.succ].
  replace (IZR 5 - IZR 1) with 4 by lra.
  replace (h - 2 * 40) with (h - 80) by lra.
  rewrite <- INR_IZR_INZ. reflexivity.
Qed.
End ExactGeometry.

(** ** Transport and playback state, in exact arithmetic *)

Section ExactTransport.
Local Open Scope R_scope.

Lemma clampUnit_range (pct : R) : 0 <= clampUnit pct <= 1.
Proof.
  unfold clampUnit. split; [apply Rmax_l|].
  apply Rmax_lub; [lra | apply Rmin_l].
Qed.

(** Clamping a time to [0, duration] is clamping its fraction to [0, 1]. *)
Lemma clamp_scaled (pct dur : R) :
  0 < dur -> Rmax 0 (Rmin (pct * dur) dur) = clampUnit pct * dur.
Proof.
  intros Hd. unfold clampUnit.
  destruct (Rle_or_lt pct 1) as [H1 | H1].
  - rewrite (Rmin_right 1 pct) by assumption.
    rewrite (Rmin_left (pct * dur) dur) by nra.
    destruct (Rle_or_lt 0 pct) as [H0 | H0].
    + rewrite !Rmax_right by nra. reflexivity.
    + rewrite !Rmax_left by nra. ring.
  - rewrite (Rmin_left 1 pct) by lra.
    rewrite (Rmin_right (pct * dur) dur) by nra.
    rewrite !Rmax_right by lra. ring.
Qed.

Lemma dragTarget_scaled (pct dur : R) :
  0 < dur -> dragTarget pct dur = clampUnit pct * dur.
Proof.
  intros Hd. unfold dragTarget. fold (clampUnit pct).
  pose proof (clampUnit_range pct) as [H0 H1].
  rewrite Rmin_left by nra. apply Rmax_right. nra.
Qed.

Lemma progressPercent_exact (s : PlaybackState R) :
  0 < duration s -> progressPercent s = currentTime s / duration s * 100.
Proof.
  intros Hd. unfold progressPercent. cbn [ltb exact zero div mul ofNat].
  replace (Rltb 0 (duration s)) with true by (symmetry; apply Rltb_true; assumption).
  rewrite INR_IZR_INZ. reflexivity.
Qed.

(** The conditions on [audio.duration], in exact arithmetic. *)
Lemma truthy_exact (d : R) : truthy d = negb (Reqb d 0).
Proof.
  unfold truthy. cbn [eqb exact zero].
  replace (Reqb d d) with true by (symmetry; apply Reqb_true; reflexivity).
  reflexivity.
Qed.

Lemma isFinite_exact (d : R) : isFinite d = true.
Proof.
  unfold isFinite. cbn [eqb exact zero sub]. apply Reqb_true. lra.
Qed.

Lemma loadedDuration_exact (s : PlaybackState R) :
  loadedDuration s
  = match audioDuration s with
    | Some d => if Reqb d 0 then None else Some d
    | None => None
    end.
Proof.
  unfold loadedDuration. destruct (audioDuration s) as [d|]; [|reflexivity].
  rewrite truthy_exact, isFinite_exact. destruct (Reqb d 0); reflexivity.
Qed.

Lemma durationOrZero_exact (s : PlaybackState R) :
  durationOrZero s = match audioDuration s with Some d => d | None => 0 end.
Proof.
  unfold durationOrZero. destruct (audioDuration s) as [d|]; [|reflexivity].
  rewrite truthy_exact. destruct (Reqb d 0) eqn:Hd; cbn [negb zero exact]; [|reflexivity].
  apply Reqb_true in Hd. symmetry. exact Hd.
Qed.

(** The listener effect sets [duration] to the media's duration, and
    nothing else. *)
Lemma listenerEffect_inRange (s : PlaybackState R) : inRange s -> inRange (listenerEffect s).
Proof.
  unfold listenerEffect. rewrite loadedDuration_exact. unfold inRange.
  destruct (audioDuration s) as [d|] eqn:Ha; [|rewrite Ha; tauto].
  destruct (Reqb d 0); cbn [setDuration audioDuration audioTime currentTime duration];
    rewrite ?Ha; tauto.
Qed.

Lemma listenerEffect_synced (s : PlaybackState R) : synced s -> listenerEffect s = s.
Proof.
  intros [Ha Hd]. unfold listenerEffect. rewrite loadedDuration_exact, Ha.
  replace (Reqb (duration s) 0) with false by (symmetry; apply Reqb_false; lra).
  destruct s; reflexivity.
Qed.

Lemma step_synced (s : PlaybackState R) (e : event R) :
  synced (handle s e) -> step s e = handle s e.
Proof.
  intros Hs. unfold step. cbv zeta.
  destruct (depsChanged e s (handle s e)); [apply listenerEffect_synced; exact Hs | reflexivity].
Qed.

Lemma inRange_synced (s : PlaybackState R) :
  inRange s -> 0 < duration s ->
  synced s /\ 0 <= audioTime s <= duration s /\ 0 <= currentTime s <= duration s.
Proof.
  unfold inRange, synced. intros Hs Hd.
  destruct (audioDuration s) as [d|]; [|lra].
  destruct Hs as (Ha & Hc & [H0 | Hsame]); [lra|].
  rewrite Hsame. repeat split; lra.
Qed.

Lemma synced_inRange (s : PlaybackState R) :
  synced s -> 0 <= audioTime s <= duration s -> 0 <= currentTime s <= duration s -> inRange s.
Proof.
  intros [Ha Hd] Hat Hct. unfold inRange. rewrite Ha. tauto.
Qed.

(** A seek of a state in step with its media: the time is clamped once,
    the audio element has nothing left to clamp. *)
Lemma seekTo_exact (t : R) (s : PlaybackState R) :
  synced s ->
  seekTo t s
  = mkPlayback (Rmax 0 (Rmin t (duration s))) (duration s) (isPlaying s) (isDragging s)
               (Rmax 0 (Rmin t (duration s))) (audioDuration s).
Proof.
  intros [Ha Hd]. unfold seekTo. cbn [ltb exact zero nmax nmin].
  replace (Rltb 0 (duration s)) with true by (symmetry; apply Rltb_true; assumption).
  cbv zeta. unfold audioSeek. rewrite Ha. cbn [nmax nmin exact zero].
  unfold setCurrentTime, withAudioTime; cbn.
  rewrite Ha. f_equal.
  set (c := Rmax 0 (Rmin t (duration s))).
  assert (Hc : 0 <= c <= duration s).
  { unfold c. split; [apply Rmax_l|]. apply Rmax_lub; [lra | apply Rmin_r]. }
  rewrite Rmin_left by lra. apply Rmax_right. lra.
Qed.

Lemma dragStart_exact (pct : R) (s : PlaybackState R) :
  synced s ->
  step s (DragStart pct)
  = mkPlayback (clampUnit pct * duration s) (duration s) (isPlaying s) true
               (clampUnit pct * duration s) (audioDuration s).
Proof.
  intros Hs. pose proof Hs as [Ha Hd].
  assert (Hh : handle s (DragStart pct)
               = mkPlayback (clampUnit pct * duration s) (duration s) (isPlaying s) true
                            (clampUnit pct * duration s) (audioDuration s)).
  { cbn [handle]. unfold handleProgressDragStart. cbv zeta.
    cbn [ltb exact zero mul].
    replace (Rltb 0 (duration s)) with true by (symmetry; apply Rltb_true; assumption).
    rewrite seekTo_exact by (split; assumption).
    cbn [setIsDragging duration isPlaying isDragging audioDuration].
    rewrite clamp_scaled by assumption. reflexivity. }
  rewrite step_synced; rewrite Hh; [reflexivity|].
  split; assumption.
Qed.

Lemma dragMove_exact (pct : R) (s : PlaybackState R) :
  synced s -> isDragging s = true ->
  step s (DragMove pct)
  = mkPlayback (clampUnit pct * duration s) (duration s) (isPlaying s) true
               (clampUnit pct * duration s) (audioDuration s).
Proof.
  intros Hs Hg. pose proof Hs as [Ha Hd].
  assert (Hh : handle s (DragMove pct)
               = mkPlayback (clampUnit pct * duration s) (duration s) (isPlaying s) true
                            (clampUnit pct * duration s) (audioDuration s)).
  { cbn [handle]. rewrite Hg. unfold handleProgressDrag.
    cbn [ltb exact zero mul nmax nmin ofNat].
    replace (Rltb 0 (duration s)) with true by (symmetry; apply Rltb_true; assumption).
    rewrite seekTo_exact by assumption. rewrite Hg.
    change (INR 1) with 1.
    fold (dragTarget pct (duration s)). rewrite dragTarget_scaled by assumption.
    reflexivity. }
  rewrite step_synced; rewrite Hh; [reflexivity|].
  split; assumption.
Qed.

(** Every handler keeps the positions inside the media. *)
Lemma handle_inRange (s : PlaybackState R) (e : event R) :
  inRange s -> wellBehaved s e -> inRange (handle s e).
Proof.
  intros Hs He.
  assert (Hseek : forall t s0, inRange s0 -> inRange (seekTo t s0)).
  { intros t s0 Hs0. unfold seekTo. cbn [ltb exact zero nmax nmin].
    destruct (Rltb 0 (duration s0)) eqn:Hd; [|exact Hs0].
    apply Rltb_true in Hd.
    destruct (@inRange_synced s0 Hs0 Hd) as (Hsy & _ & _).
    pose proof (@seekTo_exact t s0 Hsy) as Hx. unfold seekTo in Hx.
    cbn [ltb exact zero nmax nmin] in Hx.
    replace (Rltb 0 (duration s0)) with true in Hx by (symmetry; apply Rltb_true; assumption).
    rewrite Hx. apply synced_inRange; cbn [audioTime currentTime duration audioDuration].
    - exact Hsy.
    - split; [apply Rmax_l|]. apply Rmax_lub; [lra | apply Rmin_r].
    - split; [apply Rmax_l|]. apply Rmax_lub; [lra | apply Rmin_r]. }
  destruct e; cbn [handle].
  - unfold updateTime. destruct (isPlaying s && negb (isDragging s))%bool; [|exact Hs].
    unfold inRange in *; cbn. destruct (audioDuration s); [tauto|].
    destruct Hs as (Ha & _ & Hd). rewrite Ha. tauto.
  - unfold handleTimeUpdate.
    destruct (negb (isPlaying s) && negb (isDragging s))%bool; [|exact Hs].
    unfold inRange in *; cbn. destruct (audioDuration s); [tauto|].
    destruct Hs as (Ha & _ & Hd). rewrite Ha. tauto.
  - unfold handleEnded. unfold inRange in *.
    cbn [setCurrentTime setIsPlaying audioDuration audioTime currentTime duration].
    rewrite durationOrZero_exact.
    cbn [setIsPlaying audioDuration].
    destruct (audioDuration s) as [d|]; [|tauto].
    destruct Hs as (Ha & Hc & Hd). repeat split; try tauto; lra.
  - destruct He as [Hfrom Hd0]. unfold inRange in *. cbn.
    destruct Hfrom as [Hnone | Hsame]; [rewrite Hnone in Hs | rewrite Hsame in Hs].
    + destruct Hs as (-> & _ & _). repeat split; try lra; right; reflexivity.
    + destruct Hs as (Ha & _ & _). repeat split; try lra; right; reflexivity.
  - unfold handleCanPlay. cbn [eqb exact zero].
    destruct (Reqb (duration s) 0); [|exact Hs].
    rewrite loadedDuration_exact.
    destruct (audioDuration s) as [d|] eqn:Ha; [|exact Hs].
    destruct (Reqb d 0); [exact Hs|].
    unfold inRange in *. cbn. rewrite Ha in *. tauto.
  - unfold handleProgressDragStart. cbv zeta. cbn [ltb exact zero mul].
    cbn [setIsDragging duration].
    destruct (Rltb 0 (duration s)); [apply Hseek|]; exact Hs.
  - destruct (isDragging s); [|exact Hs].
    unfold handleProgressDrag. cbn [ltb exact zero].
    destruct (Rltb 0 (duration s)); [apply Hseek|]; exact Hs.
  - destruct (isDragging s); exact Hs.
  - unfold togglePlayPause. destruct (isPlaying s); [exact Hs|].
    unfold audioPlay, inRange in *. cbn [leb exact zero].
    destruct (audioDuration s) as [d|] eqn:Ha; cbn; rewrite ?Ha; [|exact Hs].
    destruct (Rleb d (audioTime s)); cbn; rewrite Ha; [|exact Hs].
    repeat split; try tauto; lra.
  - unfold restart, audioSeek, inRange in *. cbn [nmax nmin exact zero].
    destruct (audioDuration s) as [d|] eqn:Ha; cbn; rewrite Ha.
    + assert (Hd : 0 <= d) by lra.
      rewrite Rmin_left by lra. rewrite Rmax_left by lra.
      repeat split; try tauto; lra.
    + tauto.
  - unfold handleFileUpload, inRange. cbn. tauto.
  - cbn in He. unfold mediaAdvance, inRange in *. cbn [add nmin exact].
    destruct (audioDuration s) as [d|] eqn:Ha; cbn; rewrite Ha; [|exact Hs].
    destruct Hs as (Hat & Hc & Hd).
    repeat split; try tauto.
    + apply Rmin_glb; lra.
    + apply Rmin_r.
  - destruct He as [Hnone Hd0]. unfold inRange in *. rewrite Hnone in Hs. cbn.
    destruct Hs as (-> & -> & ->). repeat split; try lra; left; reflexivity.
Qed.

Lemma step_inRange (s : PlaybackState R) (e : event R) :
  inRange s -> wellBehaved s e -> inRange (step s e).
Proof.
  intros Hs He. unfold step. cbv zeta.
  destruct (depsChanged e s (handle s e));
    [apply listenerEffect_inRange|]; apply handle_inRange; assumption.
Qed.

(** The audio element's position under two successive advances. *)
Lemma Rmin_advance (a x y d : R) :
  0 <= y -> Rmin (Rmin (a + x) d + y) d = Rmin (a + x + y) d.
Proof. intros Hy. unfold Rmin. repeat destruct (Rle_dec _ _); lra. Qed.

Lemma elapsed_cons (e : event R) (evs : list (event R)) :
  elapsed (e :: evs)
  = match e with MediaAdvance dt => dt | _ => 0 end + elapsed evs.
Proof. unfold elapsed; destruct e; cbn; lra. Qed.

Lemma elapsed_nonneg (evs : list (event R)) : forwardClock evs -> 0 <= elapsed evs.
Proof.
  induction 1 as [|e evs [_ He] _ IH]; [cbn; lra|].
  rewrite elapsed_cons. destruct e; lra.
Qed.

(** One animation frame, timeupdate event or stretch of playing, at a
    state in step with its media. *)
Lemma forward_step (s : PlaybackState R) (e : event R) :
  synced s -> audioTime s <= duration s ->
  clockDriven e = true
  /\ match e with MediaAdvance dt => 0 <= dt | Ended => False | _ => True end ->
  let s' := step s e in
  synced s' /\ duration s' = duration s
  /\ isPlaying s' = isPlaying s /\ isDragging s' = isDragging s
  /\ audioTime s' = Rmin (audioTime s + match e with MediaAdvance dt => dt | _ => 0 end)
                         (duration s)
  /\ (currentTime s' = currentTime s
      \/ (isDragging s = false /\ currentTime s' = audioTime s)).
Proof.
  intros Hs Hle [Hc He]. pose proof Hs as [Ha Hd]. cbv zeta.
  assert (Hsame : audioTime s = Rmin (audioTime s + 0) (duration s))
    by (rewrite Rplus_0_r, Rmin_left by assumption; reflexivity).
  destruct e; try discriminate; try contradiction.
  - assert (Hh : handle s RafTick = s \/
                 (isDragging s = false /\ handle s RafTick = setCurrentTime (audioTime s) s)).
    { cbn [handle]. unfold updateTime.
      destruct (isPlaying s); destruct (isDragging s); cbn; auto. }
    destruct Hh as [Hh | [Hg Hh]]; rewrite step_synced; rewrite Hh; cbn;
      repeat split; auto.
  - assert (Hh : handle s TimeUpdate = s \/
                 (isDragging s = false /\ handle s TimeUpdate = setCurrentTime (audioTime s) s)).
    { cbn [handle]. unfold handleTimeUpdate.
      destruct (isPlaying s); destruct (isDragging s); cbn; auto. }
    destruct Hh as [Hh | [Hg Hh]]; rewrite step_synced; rewrite Hh; cbn;
      repeat split; auto.
  - assert (Hh : handle s (MediaAdvance dt)
                 = withAudioTime (Rmin (audioTime s + dt) (duration s)) s).
    { cbn [handle]. unfold mediaAdvance. rewrite Ha. reflexivity. }
    rewrite step_synced; rewrite Hh; cbn; repeat split; auto.
Qed.

(** During a drag the position is held while the audio element plays on. *)
Lemma clock_run_during_drag (evs : list (event R)) :
  forall s : PlaybackState R,
    synced s -> audioTime s <= duration s -> isDragging s = true -> forwardClock evs ->
    let sf := run evs s in
    synced sf /\ duration sf = duration s
    /\ isPlaying sf = isPlaying s /\ isDragging sf = true
    /\ currentTime sf = currentTime s
    /\ audioTime sf = Rmin (audioTime s + elapsed evs) (duration s).
Proof.
  induction evs as [|e evs IH]; intros s Hs Hle Hg Hall; cbv zeta.
  - cbn. rewrite Rplus_0_r, Rmin_left by assumption.
    split; [exact Hs | repeat split; auto].
  - inversion Hall as [|? ? He Hrest]; subst.
    destruct (@forward_step s e Hs Hle He) as (Hs1 & Hd1 & Hp1 & Hg1 & Ha1 & Hc1).
    assert (Hdt : 0 <= match e with MediaAdvance dt => dt | _ => 0 end)
      by (destruct He as [_ He]; destruct e; lra).
    assert (Hle1 : audioTime (step s e) <= duration (step s e))
      by (rewrite Ha1, Hd1; apply Rmin_r).
    rewrite Hg in Hg1.
    destruct (IH (step s e) Hs1 Hle1 Hg1 Hrest) as (Hs2 & Hd2 & Hp2 & Hg2 & Hc2 & Ha2).
    unfold run in *. cbn [fold_left].
    rewrite Hd2, Hp2, Hc2, Ha2, Hd1, Hp1, Ha1, elapsed_cons.
    split; [exact Hs2|]. repeat split; auto.
    + destruct Hc1 as [Hc1 | [Hc1 _]]; [exact Hc1 | congruence].
    + rewrite Rmin_advance by (apply elapsed_nonneg; exact Hrest).
      f_equal. lra.
Qed.

(** After the release the position follows the audio element. *)
Lemma clock_run_released (evs : list (event R)) :
  forall s : PlaybackState R,
    synced s -> isDragging s = false -> forwardClock evs ->
    currentTime s <= audioTime s <= duration s ->
    let sf := run evs s in
    synced sf /\ duration sf = duration s
    /\ isPlaying sf = isPlaying s /\ isDragging sf = false
    /\ audioTime sf = Rmin (audioTime s + elapsed evs) (duration s)
    /\ currentTime s <= currentTime sf <= audioTime sf.
Proof.
  induction evs as [|e evs IH]; intros s Hs Hg Hall [Hca Hle]; cbv zeta.
  - cbn. rewrite Rplus_0_r, Rmin_left by assumption.
    split; [exact Hs | repeat split; auto; lra].
  - inversion Hall as [|? ? He Hrest]; subst.
    destruct (@forward_step s e Hs Hle He) as (Hs1 & Hd1 & Hp1 & Hg1 & Ha1 & Hc1).
    assert (Hdt : 0 <= match e with MediaAdvance dt => dt | _ => 0 end)
      by (destruct He as [_ He]; destruct e; lra).
    assert (Hup : audioTime s <= audioTime (step s e)).
    { rewrite Ha1. apply Rmin_glb; lra. }
    assert (Hle1 : audioTime (step s e) <= duration (step s e))
      by (rewrite Ha1, Hd1; apply Rmin_r).
    assert (Hc1' : currentTime s <= currentTime (step s e) <= audioTime (step s e)).
    { destruct Hc1 as [Hc1 | [_ Hc1]]; rewrite Hc1; lra. }
    rewrite Hg in Hg1.
    destruct (IH (step s e) Hs1 Hg1 Hrest (conj (proj2 Hc1') Hle1))
      as (Hs2 & Hd2 & Hp2 & Hg2 & Ha2 & Hc2).
    unfold run in *. cbn [fold_left].
    rewrite Hd2, Hp2, Ha2, Hd1, Hp1, Ha1, elapsed_cons.
    split; [exact Hs2|]. repeat split; auto.
    + rewrite Rmin_advance by (apply elapsed_nonneg; exact Hrest).
      f_equal. lra.
    + lra.
    + destruct Hc2 as [_ Hc2]. rewrite Ha2, Hd1, Ha1 in Hc2. exact Hc2.
Qed.

End ExactTransport.

(** ** The curves of a tick *)

Section CurveFacts.
Context {num : Type} `{JsNumber num}.

Lemma curvesOf_app (a b : list (drawOp num)) :
  curvesOf (a ++ b) = curvesOf a ++ curvesOf b.
Proof. unfold curvesOf. apply flat_map_app. Qed.

Lemma curvesOf_cons (op : drawOp num) (l : list (drawOp num)) :
  curvesOf (op :: l)
  = match op with Curve p idx => [(p, idx)] | _ => [] end ++ curvesOf l.
Proof. reflexivity. Qed.

Lemma curvesOf_markers (isPeak : bool) (idxs : list nat) (startIdx endIdx : nat) :
  curvesOf (markers (num := num) isPeak idxs startIdx endIdx) = [].
Proof.
  unfold markers.
  induction (filter (fun idx => (startIdx <=? idx) && (idx <=? endIdx)) idxs) as [|i l IH];
    [reflexivity | exact IH].
Qed.

Lemma curveIndices_resolved (startIdx endIdx n : nat) :
  endIdx < n -> curveIndices startIdx endIdx n = seq startIdx (S endIdx - startIdx).
Proof. intros He. unfold curveIndices. rewrite Nat.min_l by lia. reflexivity. Qed.

Lemma renderEffect_curves (data : AnalysisData num) (t w : num) :
  renderEffect data t w = []
  \/ (let s := Z.to_nat (startIdxOf data t w) in
      let e := Z.to_nat (endIdxOf data t) in
      e < length (times data)
      /\ curvesOf (renderEffect data t w)
         = [(PitchPanel, seq s (S e - s)); (VolumePanel, seq s (S e - s));
            (OverlayPanel, seq s (S e - s))]).
Proof.
  unfold renderEffect.
  destruct (length (times data) =? 0); [left; reflexivity|].
  cbv zeta.
  destruct (startIdxOf data t w =? -1)%Z eqn:Hs; [left; reflexivity|].
  destruct (endIdxOf data t =? -1)%Z eqn:He; [left; reflexivity|].
  right. cbn [orb]. apply Z.eqb_neq in He. apply findIndex_range in He.
  fold (endIdxOf data t) in He.
  split; [exact He|].
  unfold drawPitchDeviation, drawAmplitude, drawCorrelation.
  rewrite !curveIndices_resolved by exact He.
  destruct (Z.to_nat (startIdxOf data t w) <? Z.to_nat (endIdxOf data t));
    repeat (rewrite ?curvesOf_app, ?curvesOf_cons, ?curvesOf_markers; cbn [app]);
    reflexivity.
Qed.
End CurveFacts.

(** ** When a tick is skipped *)

Section SkipFacts.
Context {num : Type} `{JsNumber num}.

Lemma renderEffect_skip_iff (data : AnalysisData num) (t w : num) :
  renderEffect data t w = []
  <-> (times data = []
       \/ noIndexWith (fun u => u [>=] timeStartOf t w)%js (times data)
       \/ noIndexWith (fun u => u [>=] t)%js (times data)).
Proof.
  unfold renderEffect.
  destruct (times data) as [|t0 ts] eqn:Ht; [cbn; tauto|].
  cbn [length Nat.eqb]. cbv zeta.
  unfold startIdxOf, endIdxOf, timeEndOf; rewrite Ht.
  set (ps := fun u : num => (u [>=] timeStartOf t w)%js).
  set (pe := fun u : num => (u [>=] t)%js).
  pose proof (findIndex_unresolved ps (t0 :: ts)) as Hs.
  pose proof (findIndex_unresolved pe (t0 :: ts)) as He.
  destruct (findIndex ps (t0 :: ts) =? -1)%Z eqn:Es;
    [apply Z.eqb_eq in Es; tauto|].
  destruct (findIndex pe (t0 :: ts) =? -1)%Z eqn:Ee;
    [apply Z.eqb_eq in Ee; tauto|].
  apply Z.eqb_neq in Es, Ee. cbn [orb app].
  split; [discriminate|].
  intros [Hnil | [Hn | Hn]]; [discriminate | tauto | tauto].
Qed.
End SkipFacts.

(** ** Evaluation in exact arithmetic *)

(** Decides the comparisons of the exact instance on numerals. *)
Ltac decide_Rleb :=
  repeat match goal with
         | |- context [Rleb ?a ?b] =>
             first [ replace (Rleb a b) with true by (symmetry; apply Rleb_true; lra)
                   | replace (Rleb a b) with false by (symmetry; apply Rleb_false; lra) ]
         end.

Lemma nonDecreasing_012 : nonDecreasing [0; 1; 2]%R.
Proof.
  intros i j a b Hij Ha Hb.
  destruct i as [|[|[|i]]]; destruct j as [|[|[|j]]]; cbn in Ha, Hb;
    try discriminate; try lia;
    try (destruct i; discriminate); try (destruct j; discriminate);
    inversion Ha; inversion Hb; subst; lra.
Qed.

Lemma startIdx_012 :
  startIdxOf (mkAnalysisData [0; 1; 2]%R [0; 20; 0]%R [0; 1; 0]%R [0; 0; 0]%R [] [] 0)
             (3 / 2)%R 1%R = 1%Z.
Proof.
  unfold startIdxOf, findIndex, timeStartOf.
  cbn [times findIndexFrom leb exact nmax sub zero].
  rewrite Rmax_right by lra. decide_Rleb. reflexivity.
Qed.

Lemma endIdx_012 :
  endIdxOf (mkAnalysisData [0; 1; 2]%R [0; 20; 0]%R [0; 1; 0]%R [0; 0; 0]%R [] [] 0)
           (3 / 2)%R = 2%Z.
Proof.
  unfold endIdxOf, findIndex, timeEndOf.
  cbn [times findIndexFrom leb exact]. decide_Rleb. reflexivity.
Qed.

(** * Further properties of the code: correlation, window, geometry, transport *)

(** X4.  In exact arithmetic the correlation estimate is symmetric in
    its two slices, whatever their lengths. *)
Theorem correlation_symmetric (x y : list R) :
  calculateCorrelation x y = calculateCorrelation y x.
Proof. apply correlation_exact_symmetric. Qed.

(** X5.  In exact arithmetic a change of unit or offset of one series,
    [v -> a * v + b] with [a <> 0], leaves the correlation unchanged up
    to the sign of [a]. *)
Theorem correlation_unit_change (a b : R) (x y : list R) :
  a <> 0%R ->
  calculateCorrelation x (map (fun v => a * v + b)%R y)
  = (a / Rabs a * calculateCorrelation x y)%R.
Proof. apply correlation_exact_affine. Qed.

Lemma correlation_unit_change_witness :
  calculateCorrelation [1; 2; 4]%R (map (fun v => 100 * v + 7)%R [3; 5; 4]%R)
  = (100 / Rabs 100 * calculateCorrelation [1; 2; 4]%R [3; 5; 4]%R)%R.
Proof.
  apply (@correlation_unit_change 100%R 7%R [1; 2; 4]%R [3; 5; 4]%R). lra.
Defined.

(** X6.  In exact arithmetic a non-constant series against an exact
    linear image of itself gives 1 when the slope is positive and -1
    when it is negative. *)
Theorem correlation_of_linear_relation (a b : R) (x : list R) :
  a <> 0%R -> nonConstant x ->
  calculateCorrelation x (map (fun v => a * v + b)%R x)
  = (if Rlt_dec 0 a then 1 else -1)%R.
Proof.
  intros Ha Hx. rewrite correlation_exact_linear by assumption.
  destruct (Rlt_dec 0 a) as [Hpos | Hneg].
  - rewrite Rabs_right by lra. field; lra.
  - rewrite Rabs_left by lra. field; lra.
Qed.

Lemma correlation_of_linear_relation_witness :
  calculateCorrelation [1; 2; 4]%R (map (fun v => -3 * v + 5)%R [1; 2; 4]%R)
  = (if Rlt_dec 0 (-3) then 1 else -1)%R.
Proof.
  apply (@correlation_of_linear_relation (-3)%R 5%R [1; 2; 4]%R).
  - lra.
  - exists 1%R, 2%R. repeat split; [left; reflexivity | right; left; reflexivity | lra].
Defined.

(** X7.  For a current time and window size that are not negative, the
    tick is skipped exactly when there are no frames or every sample
    time is below the current time; and when the end index resolves,
    the start index resolves too and is not after it. *)
Theorem tick_skipped_only_past_last_sample (data : AnalysisData R) (t w : R) :
  (0 <= t)%R -> (0 <= w)%R ->
  (renderEffect data t w = []
   <-> (times data = [] \/ noIndexWith (fun u => u [>=] t)%js (times data)))
  /\ (endIdxOf data t = (-1)%Z
      \/ (0 <= startIdxOf data t w <= endIdxOf data t)%Z).
Proof.
  intros Ht Hw. split.
  - rewrite renderEffect_skip_iff.
    split; [|tauto].
    intros [Hnil | [Hs | He]]; [tauto | right | tauto].
    intros a Ha. pose proof (Hs a Ha) as Hps. cbn in Hps |- *.
    apply Rleb_false in Hps. apply Rleb_false.
    pose proof (window_ordered Ht Hw) as Hord. unfold timeEndOf in Hord.
    cbn in Hord. lra.
  - destruct (Z.eq_dec (endIdxOf data t) (-1)) as [He | He]; [left; assumption|].
    right. destruct (startIdx_before_endIdx data Ht Hw He) as [Hs Hle].
    split; [|assumption].
    unfold startIdxOf in *.
    destruct (findIndex_spec (fun u => (u [>=] timeStartOf t w)%js) (times data))
      as [[Hm _] | ((H0 & _) & _)]; [contradiction | assumption].
Qed.

Lemma tick_skipped_witness :
  let data := mkAnalysisData [0; 1; 2]%R [0; 20; 0]%R [0; 1; 0]%R [0; 0; 0]%R [] [] 0 in
  (renderEffect data (3 / 2)%R 1%R = []
   <-> (times data = [] \/ noIndexWith (fun u => u [>=] (3 / 2)%R)%js (times data)))
  /\ (endIdxOf data (3 / 2)%R = (-1)%Z
      \/ (0 <= startIdxOf data (3 / 2)%R 1%R <= endIdxOf data (3 / 2)%R)%Z).
Proof.
  apply (@tick_skipped_only_past_last_sample
           (mkAnalysisData [0; 1; 2]%R [0; 20; 0]%R [0; 1; 0]%R [0; 0; 0]%R [] [] 0)
           (3 / 2)%R 1%R); lra.
Defined.

(** X8.  When the sample times never decrease, every frame from the
    start index up to, but not including, the end index has its time
    inside the visible window. *)
Theorem drawn_frames_lie_in_window (data : AnalysisData R) (t w : R) (i : nat) (a : R) :
  nonDecreasing (times data) ->
  (0 <= startIdxOf data t w <= Z.of_nat i)%Z ->
  (Z.of_nat i < endIdxOf data t)%Z ->
  nth_error (times data) i = Some a ->
  (timeStartOf t w <= a < t)%R.
Proof.
  intros Hsorted [Hs0 Hsi] Hie Ha.
  assert (Hs : startIdxOf data t w <> (-1)%Z) by lia.
  assert (Hi : Z.to_nat (startIdxOf data t w) <= i) by lia.
  destruct (window_frames_in_range data t w Hsorted Hs Hi Ha) as [Hlo Hhi].
  split; [assumption | apply Hhi; assumption].
Qed.

Lemma drawn_frames_witness :
  (timeStartOf (3 / 2) 1 <= 1 < 3 / 2)%R.
Proof.
  apply (@drawn_frames_lie_in_window
           (mkAnalysisData [0; 1; 2]%R [0; 20; 0]%R [0; 1; 0]%R [0; 0; 0]%R [] [] 0)
           (3 / 2)%R 1%R 1 1%R).
  - exact nonDecreasing_012.
  - rewrite startIdx_012. cbn. lia.
  - rewrite endIdx_012. cbn. lia.
  - reflexivity.
Defined.

(** X9.  When the arrays of a result have one entry per frame and the
    end index resolves, the two slices the renderer hands to the
    correlation estimate have the same length, [endIdx + 1 - startIdx];
    the call is made only for [startIdx < endIdx], so on at least two
    frames, and the estimate's length guard is not what answers. *)
Theorem correlation_label_slices
  (num : Type) (N : JsNumber num) (data : AnalysisData num) (t w : num) :
  alignedData data ->
  (0 <= endIdxOf data t)%Z ->
  let s := Z.to_nat (startIdxOf data t w) in
  let e := Z.to_nat (endIdxOf data t) in
  length (slice (pitchDeviation data) s (e + 1)) = e + 1 - s
  /\ length (slice (amplitudeDeviation data) s (e + 1)) = e + 1 - s
  /\ (s < e -> 2 <= e + 1 - s).
Proof.
  intros (Hp & Ha & _) He. cbv zeta.
  assert (Hne : endIdxOf data t <> (-1)%Z) by lia.
  apply findIndex_range in Hne. fold (endIdxOf data t) in Hne.
  rewrite !slice_length by lia.
  repeat split. lia.
Qed.

Lemma correlation_label_slices_witness :
  let data := mkAnalysisData [0; 1; 2; 3]%float [0; 20; 0; -20]%float
                             [0; 1; 0; -1]%float [0.5; 0.5; 0.5; 0.5]%float
                             [1] [3] 1 in
  length (slice (pitchDeviation data) 0 3) = 3
  /\ length (slice (amplitudeDeviation data) 0 3) = 3
  /\ (0 < 2 -> 2 <= 3).
Proof.
  apply (@correlation_label_slices float binary64
           (mkAnalysisData [0; 1; 2; 3]%float [0; 20; 0; -20]%float
                           [0; 1; 0; -1]%float [0.5; 0.5; 0.5; 0.5]%float
                           [1] [3] 1) 2%float 5%float).
  - repeat split.
  - vm_compute. discriminate.
Defined.

(** X10.  On a drawn tick the three panels plot the same frames, the
    start index through the end index inclusive, and the end index is
    an index of [times]. *)
Theorem panels_plot_same_frames
  (num : Type) (N : JsNumber num) (data : AnalysisData num) (t w : num) :
  renderEffect data t w = []
  \/ (let s := Z.to_nat (startIdxOf data t w) in
      let e := Z.to_nat (endIdxOf data t) in
      e < length (times data)
      /\ curvesOf (renderEffect data t w)
         = [(PitchPanel, seq s (S e - s)); (VolumePanel, seq s (S e - s));
            (OverlayPanel, seq s (S e - s))]).
Proof. apply renderEffect_curves. Qed.

(** X11.  In exact arithmetic, for a panel at least 80 pixels high, each
    curve is linear inside its range and pinned to the edge of the band
    [40, height - 40] outside it: the pitch curve for +-200 cents, the
    volume curve for +-20 percent, the overlay's pitch curve for +-100
    cents and the overlay's amplitude curve, drawn five times enlarged,
    for +-20 percent. *)
Theorem curve_scales_saturate :
  saturatesAt pitchY 200 /\ saturatesAt volumeY 20
  /\ saturatesAt overlayPitchY 100 /\ saturatesAt overlayAmpY 20
  /\ (80 <= HEIGHT_PITCH)%R /\ (80 <= HEIGHT_VOLUME)%R /\ (80 <= HEIGHT_CORRELATION)%R.
Proof.
  assert (Hheights : (80 <= HEIGHT_PITCH)%R /\ (80 <= HEIGHT_VOLUME)%R
                     /\ (80 <= HEIGHT_CORRELATION)%R).
  { unfold HEIGHT_PITCH, HEIGHT_VOLUME, HEIGHT_CORRELATION. real_literals. lra. }
  split; [|split; [|split; [|split; [|exact Hheights]]]];
    intros h v Hh; (split; [|split]); intros Hv.
  - rewrite pitchY_unclamped by lra. field.
  - rewrite pitchY_exact. apply clampY_below; [assumption | nra].
  - rewrite pitchY_exact. apply clampY_above; [assumption | nra].
  - rewrite volumeY_unclamped by lra. field.
  - rewrite volumeY_exact. apply clampY_below; [assumption | nra].
  - rewrite volumeY_exact. apply clampY_above; [assumption | nra].
  - rewrite overlayPitchY_unclamped by lra. field.
  - rewrite overlayPitchY_exact. apply clampY_below; [assumption | nra].
  - rewrite overlayPitchY_exact. apply clampY_above; [assumption | nra].
  - rewrite overlayAmpY_unclamped by lra. field.
  - rewrite overlayAmpY_exact. apply clampY_below; [assumption | nra].
  - rewrite overlayAmpY_exact. apply clampY_above; [assumption | nra].
Qed.

(** X12.  In exact arithmetic, for a panel at least 80 pixels high, the
    grid line that carries the label [l] lies at the height where the
    panel's curve draws the value [- l]: the labels grow downwards while
    the curves grow upwards.  The emphasised centre line, labelled 0, is
    the zero line of the curves at half the height. *)
Theorem grid_labels_mirror_curves (h : R) :
  (80 <= h)%R ->
  Forall2 (fun i l => gridY h (length (pitchLabels (num := R))) i = pitchY h (- l)%R)
          (seq 0 5) pitchLabels
  /\ Forall2 (fun i l => gridY h (length (volumeLabels (num := R))) i = volumeY h (- l)%R)
             (seq 0 5) volumeLabels
  /\ Forall2 (fun i l => gridY h (length (overlayLabels (num := R))) i
                         = overlayPitchY h (- l)%R)
             (seq 0 5) overlayLabels
  /\ gridCenterY h 5 = (h / 2)%R
  /\ pitchY h 0%R = (h / 2)%R.
Proof.
  intros Hh.
  assert (Hlit : forall n : nat, negLit (num := R) n = (- INR n)%R)
    by (intros n; unfold negLit; cbn; lra).
  unfold pitchLabels, volumeLabels, overlayLabels, gridCenterY, centerIdx.
  cbn [length seq Nat.div Nat.divmod fst].
  rewrite !Hlit.
  cbn [ofNat exact]. rewrite !INR_IZR_INZ.
  cbn [Z.of_nat Pos.of_succ_nat Pos.succ].
  split; [|split; [|split; [|split]]].
  all: repeat (apply Forall2_cons || apply Forall2_nil).
  all: rewrite ?gridY_five, ?INR_IZR_INZ; cbn [Z.of_nat Pos.of_succ_nat Pos.succ].
  all: try (rewrite pitchY_unclamped by lra; field).
  all: try (rewrite volumeY_unclamped by lra; field).
  all: try (rewrite overlayPitchY_unclamped by lra; field).
  field.
Qed.

Lemma grid_labels_witness :
  gridCenterY 200%R 5 = (200 / 2)%R /\ pitchY 200%R 0%R = (200 / 2)%R.
Proof.
  destruct (@grid_labels_mirror_curves 200%R) as (_ & _ & _ & Hc & Hz); [lra|].
  split; assumption.
Defined.

(** X13.  In exact arithmetic, for a positive current time and window
    size and a canvas at least 80 pixels wide, [timeToX] sends the start
    of the window to x = 40 and the current time to x = width - 40, and
    is monotone in between; the playhead line is drawn 10 pixels to the
    left of the current time's position. *)
Theorem timeToX_spans_content (t w width : R) :
  (0 < t)%R -> (0 < w)%R -> (80 <= width)%R ->
  let ts := timeStartOf t w in
  let te := timeEndOf t in
  timeToX ts te width ts = 40%R
  /\ timeToX ts te width te = (width - 40)%R
  /\ (forall a b, (a <= b)%R -> (timeToX ts te width a <= timeToX ts te width b)%R)
  /\ playheadX width = (timeToX ts te width te - 10)%R.
Proof.
  intros Ht Hw Hwidth. cbv zeta.
  assert (Hlt : (timeStartOf t w < timeEndOf t)%R).
  { unfold timeStartOf, timeEndOf; cbn. apply Rmax_lub_lt; lra. }
  set (ts := timeStartOf t w) in *. set (te := timeEndOf t) in *.
  rewrite playheadX_exact. rewrite !timeToX_exact.
  repeat split.
  - field; lra.
  - field; lra.
  - intros a b Hab. rewrite !timeToX_exact.
    apply Rplus_le_compat_l. apply Rmult_le_compat_r; [lra|].
    apply Rmult_le_compat_r; [|lra].
    left. apply Rinv_0_lt_compat. lra.
  - field; lra.
Qed.

Lemma timeToX_witness :
  timeToX (timeStartOf 12%R 5%R) (timeEndOf 12%R) 800%R (timeStartOf 12%R 5%R) = 40%R
  /\ playheadX 800%R
     = (timeToX (timeStartOf 12%R 5%R) (timeEndOf 12%R) 800%R (timeEndOf 12%R) - 10)%R.
Proof.
  destruct (@timeToX_spans_content 12%R 5%R 800%R) as (H0 & _ & _ & Hp);
    [lra | lra | lra |].
  split; assumption.
Defined.

(** X14.  In exact arithmetic the position and the audio element's
    position stay inside the media, [0 .. audio.duration], and
    [duration] stays either 0 or the media's duration, along every run
    of events: uploads, the loading of metadata, animation frames,
    timeupdate, canplay and ended events, presses, drags and releases
    of the progress bar, play, pause and restart, as long as the audio
    element plays forward and reports durations that are not negative.
    The state of a freshly opened page is such a state. *)
Theorem playback_position_stays_in_range (evs : list (event R)) (s : PlaybackState R) :
  inRange s -> admissible s evs -> inRange (run evs s).
Proof.
  revert s. induction evs as [|e evs IH]; intros s Hs Hadm; [exact Hs|].
  destruct Hadm as [He Hrest]. unfold run in *. cbn [fold_left].
  apply IH; [apply step_inRange; assumption | exact Hrest].
Qed.

Lemma playback_position_witness :
  inRange (run [FileUpload; LoadedMetadata 20%R; TogglePlay; MediaAdvance 10%R; RafTick;
                DragStart (1 / 2)%R; MediaAdvance 25%R; DragMove (-1)%R; DragEnd;
                Ended; TogglePlay; Restart; CanPlay]
               initialPlayback).
Proof.
  apply (@playback_position_stays_in_range
           [FileUpload; LoadedMetadata 20%R; TogglePlay; MediaAdvance 10%R; RafTick;
            DragStart (1 / 2)%R; MediaAdvance 25%R; DragMove (-1)%R; DragEnd;
            Ended; TogglePlay; Restart; CanPlay]
           initialPlayback).
  - unfold inRange; cbn. repeat split; reflexivity.
  - cbn [admissible wellBehaved].
    split; [exact I|].
    split; [split; [left; reflexivity | lra]|].
    split; [exact I|].
    split; [lra|].
    split; [exact I|].
    split; [exact I|].
    split; [lra|].
    repeat split.
Defined.

(** X15.  In exact arithmetic, at a state inside the media with a
    positive duration, a press on the progress bar at fraction [pct] of
    its width, whether or not a drag was active before, starts a drag
    and moves the fill of the bar to [pct] clamped to [0, 1], as a
    percentage; a mouse move to fraction [pct'] during that drag moves
    it to [pct'] clamped likewise.  Both seek the audio element to the
    position shown.  Before the press a mouse move does nothing. *)
Theorem drag_sets_progress_fraction (s : PlaybackState R) (pct pct' : R) :
  inRange s -> (0 < duration s)%R ->
  let pressed := step s (DragStart pct) in
  let moved := step pressed (DragMove pct') in
  isDragging pressed = true
  /\ progressPercent pressed = (clampUnit pct * 100)%R
  /\ audioTime pressed = currentTime pressed
  /\ progressPercent moved = (clampUnit pct' * 100)%R
  /\ audioTime moved = currentTime moved
  /\ (0 <= progressPercent pressed <= 100)%R
  /\ (0 <= progressPercent moved <= 100)%R
  /\ (isDragging s = false -> step s (DragMove pct') = s).
Proof.
  intros Hs Hd. cbv zeta.
  destruct (@inRange_synced s Hs Hd) as (Hsy & _ & _).
  rewrite (@dragStart_exact pct s Hsy).
  set (p := mkPlayback (clampUnit pct * duration s)%R (duration s) (isPlaying s) true
                       (clampUnit pct * duration s)%R (audioDuration s)).
  assert (Hpsy : synced p) by exact Hsy.
  rewrite (@dragMove_exact pct' p Hpsy eq_refl).
  rewrite !progressPercent_exact by exact Hd.
  cbn [p currentTime audioTime duration isDragging].
  pose proof (clampUnit_range pct) as [H0 H1].
  pose proof (clampUnit_range pct') as [H0' H1'].
  assert (Hq : (clampUnit pct * duration s / duration s * 100 = clampUnit pct * 100)%R)
    by (field; lra).
  assert (Hq' : (clampUnit pct' * duration s / duration s * 100 = clampUnit pct' * 100)%R)
    by (field; lra).
  rewrite Hq, Hq'.
  repeat split; try lra.
  intros Hg.
  assert (Hh : handle s (DragMove pct') = s) by (cbn [handle]; rewrite Hg; reflexivity).
  rewrite step_same_deps; rewrite Hh; reflexivity.
Qed.

Lemma drag_sets_progress_witness :
  let s := mkPlayback 3%R 20%R true false 3%R (Some 20%R) in
  isDragging s = false
  /\ isDragging (step s (DragStart (1 / 4)%R)) = true
  /\ progressPercent (step s (DragStart (1 / 4)%R)) = (clampUnit (1 / 4) * 100)%R
  /\ progressPercent (step (step s (DragStart (1 / 4)%R)) (DragMove (3 / 2)%R))
     = (clampUnit (3 / 2) * 100)%R.
Proof.
  destruct (@drag_sets_progress_fraction (mkPlayback 3%R 20%R true false 3%R (Some 20%R))
              (1 / 4)%R (3 / 2)%R)
    as (Hg & Hp & _ & Hm & _).
  - unfold inRange; cbn. repeat split; try lra; right; reflexivity.
  - cbn; lra.
  - cbv zeta. repeat split; assumption.
Defined.

(** The arrays of a scan result as images of the frame formulas. *)
Lemma mockResult_shape (num : Type) (N : JsNumber num) (frameAt : nat -> frame num) (n : nat) :
  times (mockResult frameAt n) = map (fun i => frameTime (frameAt i)) (seq 0 n)
  /\ pitchDeviation (mockResult frameAt n) = map (fun i => framePitch (frameAt i)) (seq 0 n)
  /\ amplitudeDeviation (mockResult frameAt n)
     = map (fun i => frameAmpDeviation (frameAt i)) (seq 0 n)
  /\ amplitude (mockResult frameAt n) = map (fun i => frameAmplitude (frameAt i)) (seq 0 n).
Proof.
  destruct (scanAfter_shape frameAt n n) as (Ht & Hp & Had & Ha & _).
  unfold mockResult, mockLoop; cbn. repeat split; assumption.
Qed.

Lemma mockResult_aligned (num : Type) (N : JsNumber num) (frameAt : nat -> frame num) (n : nat) :
  alignedData (mockResult frameAt n).
Proof.
  destruct (mockResult_lengths frameAt n) as (Lt & Lp & Lad & La).
  unfold alignedData. rewrite Lt, Lp, Lad, La. repeat split.
Qed.

Lemma nth_error_map_seq (A : Type) (f : nat -> A) (n i : nat) (a : A) :
  nth_error (map f (seq 0 n)) i = Some a -> a = f i.
Proof.
  intros Hi. rewrite nth_error_map in Hi.
  destruct (nth_error (seq 0 n) i) as [k|] eqn:Ek; [|discriminate].
  cbn in Hi. injection Hi as <-.
  assert (Hlt : i < n).
  { rewrite <- (length_seq n 0). apply nth_error_Some. rewrite Ek. discriminate. }
  apply (nth_error_nth _ _ 0) in Ek. rewrite seq_nth in Ek by assumption.
  cbn in Ek. subst k. reflexivity.
Qed.

Lemma scaled_indices_nonDecreasing (c : R) (n : nat) :
  (0 <= c)%R -> nonDecreasing (map (fun i => (INR i * c)%R) (seq 0 n)).
Proof.
  intros Hc i j a b Hij Hi Hj.
  apply nth_error_map_seq in Hi, Hj. subst a b.
  apply Rmult_le_compat_r; [assumption | apply le_INR; assumption].
Qed.

Lemma mock_frames_ranges (n : nat) :
  let d := mockResult (mockFrame sin PI) n in
  times d = map (fun i => (INR i * (512 / 44100))%R) (seq 0 n)
  /\ nonDecreasing (times d)
  /\ Forall (fun v => (-50 <= v <= 50)%R) (pitchDeviation d)
  /\ Forall (fun v => (- (34 / 3) <= v <= 34 / 3)%R) (amplitudeDeviation d)
  /\ Forall (fun v => (1 / 10 <= v <= 9 / 10)%R) (amplitude d)
  /\ alignedData d.
Proof.
  cbv zeta.
  destruct (@mockResult_shape R exact (mockFrame sin PI) n) as (Ht & Hp & Had & Ha).
  assert (Htimes : times (mockResult (mockFrame sin PI) n)
                   = map (fun i => (INR i * (512 / 44100))%R) (seq 0 n)).
  { rewrite Ht. apply map_ext. intros i.
    destruct (mockFrame_bounds i) as (Hti & _). cbv zeta in Hti. rewrite Hti.
    unfold Rdiv. ring. }
  split; [exact Htimes|].
  split; [rewrite Htimes; apply scaled_indices_nonDecreasing; lra|].
  split.
  { rewrite Hp. apply Forall_forall. intros v Hin.
    apply in_map_iff in Hin. destruct Hin as (i & <- & _). apply mockFrame_bounds. }
  split.
  { rewrite Had. apply Forall_forall. intros v Hin.
    apply in_map_iff in Hin. destruct Hin as (i & <- & _). apply mockFrame_bounds. }
  split.
  { rewrite Ha. apply Forall_forall. intros v Hin.
    apply in_map_iff in Hin. destruct Hin as (i & <- & _). apply mockFrame_bounds. }
  apply mockResult_aligned.
Qed.

(** X16.  In exact arithmetic the mock data set has the sample times
    [i * 512 / 44100], which never decrease, pitch deviations within
    +-50 cents, amplitude deviations within +-34/3 percent and
    amplitudes within [0.1, 0.9], so the clamp [Math.max(0, ...)] of the
    generator never acts; its four arrays have one entry per frame. *)
Theorem mock_data_value_ranges :
  let d := generateMockDataExact in
  times d = map (fun i => (INR i * (512 / 44100))%R) (seq 0 2000)
  /\ nonDecreasing (times d)
  /\ Forall (fun v => (-50 <= v <= 50)%R) (pitchDeviation d)
  /\ Forall (fun v => (- (34 / 3) <= v <= 34 / 3)%R) (amplitudeDeviation d)
  /\ Forall (fun v => (1 / 10 <= v <= 9 / 10)%R) (amplitude d)
  /\ alignedData d.
Proof. exact (mock_frames_ranges 2000). Qed.

(** X17.  In exact arithmetic, after a failed analysis run the
    statistics of the page read no peaks, no troughs, zero oscillations
    and a vibrato rate of 0 for every duration: they are those of the
    mock data set, not of the uploaded audio. *)
Theorem failed_run_shows_no_vibrato (r : fetchResult R) (st : AppState R) :
  failed r = true ->
  exists d,
    analysisData (analyzeAudio sin PI r st) = Some d
    /\ peaks d = [] /\ troughs d = [] /\ oscillations d = 0
    /\ (forall dur : R, vibratoRate d dur = 0%R).
Proof.
  intros Hf. exists (generateMockData sin PI).
  destruct (mockResult_no_extrema (mockFrame sin PI) 2000) as (Hp & Ht & Ho).
  change (mockResult (mockFrame sin PI) 2000) with (generateMockData sin PI) in Hp, Ht, Ho.
  unfold analyzeAudio, analyzeSettle, analyzeStart, catchBlock, vibratoRate.
  generalize dependent (generateMockData sin PI). intros mock Hp Ht Ho.
  split; [destruct r as [e | detail | data]; [reflexivity | reflexivity | discriminate]|].
  repeat split; try assumption.
  intros dur. rewrite Ho. cbn.
  destruct (Rltb 0 dur); [|reflexivity].
  unfold Rdiv. apply Rmult_0_l.
Qed.

Lemma failed_run_shows_no_vibrato_witness :
  exists d,
    analysisData (analyzeAudio sin PI (@ResponseNotOk R None) (mkAppState None false []))
    = Some d
    /\ peaks d = [] /\ troughs d = [] /\ oscillations d = 0
    /\ (forall dur : R, vibratoRate d dur = 0%R).
Proof.
  apply (@failed_run_shows_no_vibrato (@ResponseNotOk R None) (mkAppState None false [])).
  reflexivity.
Defined.

(** X18.  In exact arithmetic every correlation figure a tick puts on
    the overlay panel lies in [-1, 1]. *)
Theorem drawn_correlation_in_range (data : AnalysisData R) (t w : R) :
  Forall (fun op => match op with
                    | CorrelationLabel c => (-1 <= c <= 1)%R
                    | _ => True
                    end)
         (renderEffect data t w).
Proof.
  unfold renderEffect.
  destruct (length (times data) =? 0); [constructor|].
  cbv zeta.
  destruct ((startIdxOf data t w =? -1)%Z || (endIdxOf data t =? -1)%Z); [constructor|].
  cbv zeta.
  apply Forall_app; split; [repeat (apply Forall_cons; [exact I|]); apply Forall_nil|].
  apply Forall_app; split.
  { unfold drawPitchDeviation. apply Forall_cons; [exact I|].
    apply Forall_app; split; unfold markers; apply Forall_forall;
      intros op Hop; apply in_map_iff in Hop; destruct Hop as (i & <- & _); exact I. }
  apply Forall_app; split.
  { unfold drawAmplitude. apply Forall_cons; [exact I | apply Forall_nil]. }
  apply Forall_app; split.
  { unfold drawCorrelation. apply Forall_cons; [exact I|].
    destruct (_ <? _); [|apply Forall_nil].
    apply Forall_cons; [|apply Forall_nil]. apply correlation_exact_range. }
  repeat (apply Forall_cons; [exact I|]); apply Forall_nil.
Qed.

(** X19.  In exact arithmetic no point of the mock data set is clamped
    by a panel: at the heights the component uses, every mock pitch and
    amplitude deviation is drawn on the linear part of its curve, in the
    pitch panel, the volume panel and the overlay. *)
Theorem mock_data_drawn_unclamped :
  let d := generateMockDataExact in
  Forall (fun v => pitchY HEIGHT_PITCH v = (200 / 2 - v * (200 - 80) / 400)%R
                   /\ overlayPitchY HEIGHT_CORRELATION v
                      = (150 / 2 - v * (150 - 80) / 200)%R)
         (pitchDeviation d)
  /\ Forall (fun v => volumeY HEIGHT_VOLUME v = (150 / 2 - v * (150 - 80) / 40)%R
                      /\ overlayAmpY HEIGHT_CORRELATION v
                         = (150 / 2 - v * (150 - 80) / 40)%R)
            (amplitudeDeviation d).
Proof.
  cbv zeta.
  destruct (mock_frames_ranges 2000) as (_ & _ & Hp & Ha & _).
  assert (H200 : HEIGHT_PITCH (num := R) = 200%R)
    by (unfold HEIGHT_PITCH; real_literals; reflexivity).
  assert (H150v : HEIGHT_VOLUME (num := R) = 150%R)
    by (unfold HEIGHT_VOLUME; real_literals; reflexivity).
  assert (H150c : HEIGHT_CORRELATION (num := R) = 150%R)
    by (unfold HEIGHT_CORRELATION; real_literals; reflexivity).
  rewrite H200, H150v, H150c.
  split.
  - eapply Forall_impl; [|exact Hp]. cbn beta. intros v Hv. split.
    + apply pitchY_unclamped; lra.
    + apply overlayPitchY_unclamped; lra.
  - eapply Forall_impl; [|exact Ha]. cbn beta. intros v Hv. split.
    + apply volumeY_unclamped; lra.
    + apply overlayAmpY_unclamped; lra.
Qed.

(** X20.  In exact arithmetic, at a state inside the media with a
    positive duration and a drag active, playing or paused: a mouse move
    to fraction [pct] of the bar puts the position at [t0], [pct]
    clamped to [0, 1] times the duration; animation frames and
    timeupdate events leave it at [t0] while the audio element plays on
    (the ended event is not among them); the release leaves it at [t0];
    after the release it never falls below [t0] nor leaves the media,
    and the next animation frame while playing, or timeupdate event
    while paused, puts it at [t0] plus the time the audio element has
    played since the seek, capped at the duration. *)
Theorem drag_holds_position_until_release
  (s : PlaybackState R) (pct : R) (held resumed : list (event R)) :
  inRange s -> (0 < duration s)%R -> isDragging s = true ->
  forwardClock held -> forwardClock resumed ->
  let t0 := (clampUnit pct * duration s)%R in
  let dragged := step s (DragMove pct) in
  let released := step (run held dragged) DragEnd in
  let final := run resumed released in
  currentTime dragged = t0
  /\ currentTime (run held dragged) = t0
  /\ isDragging released = false
  /\ currentTime released = t0
  /\ (t0 <= currentTime final <= duration s)%R
  /\ currentTime (step final (if isPlaying s then RafTick else TimeUpdate))
     = Rmin (t0 + elapsed held + elapsed resumed) (duration s).
Proof.
  intros Hs Hd Hg Hheld Hres. cbv zeta.
  destruct (@inRange_synced s Hs Hd) as (Hsy & _ & _).
  pose proof (clampUnit_range pct) as [H0 H1].
  rewrite (@dragMove_exact pct s Hsy Hg).
  set (t0 := (clampUnit pct * duration s)%R).
  assert (Ht0 : (0 <= t0 <= duration s)%R) by (unfold t0; split; nra).
  set (d := mkPlayback t0 (duration s) (isPlaying s) true t0 (audioDuration s)).
  assert (Hdsy : synced d) by exact Hsy.
  destruct (@clock_run_during_drag held d Hdsy (proj2 Ht0) eq_refl Hheld)
    as (Hs1 & Hd1 & Hp1 & Hg1 & Hc1 & Ha1).
  cbn [d currentTime audioTime duration isPlaying] in Hd1, Hp1, Hc1, Ha1.
  set (h := run held d) in *.
  assert (Hrel : step h DragEnd = setIsDragging false h).
  { rewrite step_synced; cbn [handle]; rewrite Hg1; [reflexivity | exact Hs1]. }
  rewrite Hrel.
  set (r := setIsDragging false h).
  assert (Hrsy : synced r) by exact Hs1.
  pose proof (@elapsed_nonneg held Hheld) as Heh.
  pose proof (@elapsed_nonneg resumed Hres) as Her.
  assert (Hra : audioTime r = Rmin (t0 + elapsed held) (duration s)) by exact Ha1.
  assert (Hrc : currentTime r = t0) by exact Hc1.
  assert (Hrd : duration r = duration s) by exact Hd1.
  assert (Hrange : (currentTime r <= audioTime r <= duration r)%R).
  { rewrite Hra, Hrc, Hrd. split; [apply Rmin_glb; lra | apply Rmin_r]. }
  destruct (@clock_run_released resumed r Hrsy eq_refl Hres Hrange)
    as (Hs2 & Hd2 & Hp2 & Hg2 & Ha2 & Hc2).
  set (f := run resumed r) in *.
  rewrite Hra, Hrd, Rmin_advance in Ha2 by exact Her.
  rewrite Hrc, Ha2 in Hc2. rewrite Hrd in Hd2.
  assert (Hpf : isPlaying f = isPlaying s) by (rewrite Hp2; exact Hp1).
  split; [reflexivity|].
  split; [exact Hc1|].
  split; [reflexivity|].
  split; [exact Hc1|].
  split.
  { split; [tauto|]. eapply Rle_trans; [apply Hc2 | apply Rmin_r]. }
  rewrite <- Ha2.
  destruct (isPlaying s) eqn:Hp.
  - assert (Hh : handle f RafTick = setCurrentTime (audioTime f) f).
    { cbn [handle]. unfold updateTime. rewrite Hpf, Hg2. reflexivity. }
    rewrite step_synced; rewrite Hh; [reflexivity | exact Hs2].
  - assert (Hh : handle f TimeUpdate = setCurrentTime (audioTime f) f).
    { cbn [handle]. unfold handleTimeUpdate. rewrite Hpf, Hg2. reflexivity. }
    rewrite step_synced; rewrite Hh; [reflexivity | exact Hs2].
Qed.

Lemma drag_holds_position_witness :
  let s := mkPlayback 3%R 20%R true true 3%R (Some 20%R) in
  let final := run [MediaAdvance 2%R]
                   (step (run [MediaAdvance 1%R; RafTick] (step s (DragMove (1 / 2)%R)))
                         DragEnd) in
  currentTime (run [MediaAdvance 1%R; RafTick] (step s (DragMove (1 / 2)%R)))
  = (clampUnit (1 / 2) * 20)%R
  /\ currentTime (step final RafTick)
     = Rmin (clampUnit (1 / 2) * 20 + elapsed [MediaAdvance 1%R; RafTick]
             + elapsed [MediaAdvance 2%R]) 20.
Proof.
  destruct (@drag_holds_position_until_release
              (mkPlayback 3%R 20%R true true 3%R (Some 20%R)) (1 / 2)%R
              [MediaAdvance 1%R; RafTick] [MediaAdvance 2%R])
    as (_ & Hh & _ & _ & _ & Hf).
  - unfold inRange; cbn. repeat split; try lra; right; reflexivity.
  - cbn; lra.
  - reflexivity.
  - repeat constructor; lra.
  - repeat constructor; lra.
  - cbv zeta. split; assumption.
Defined.
